(** * Keyboard shortcut dispatch: a model of [useKeyboard.ts]

    The hook in [src/renderer/src/hooks/useKeyboard.ts] turns the
    [keydown] / [keyup] events of the document into calls of keyboard
    actions.  This file embeds the hook: the binding index built by the
    [reduce] over [keyBindings], the two refs ([altActionRef] and
    [nonModifierKeysDownRef]), the handlers [onKeyDown2] / [onKeyUp2] and
    the listener [handleKeyEvent], and proves properties of them.

    The plain object that the [reduce] builds is a finite map of its own
    properties ([gmap]) under the members it inherits from
    [Object.prototype]; [keyUpActions] is a finite map, [Set]s are finite
    sets ([gset]), and the calls
    that leave the hook (the action callbacks, [closeExportConfirm],
    [e.preventDefault], [e.stopPropagation]) are recorded in a log.  The
    [console.log] calls are not modelled. *)

From Stdlib Require Import Ascii.
From stdpp Require Import base option list gmap strings.

(** ** Data *)

(** [KeyboardAction] is a union of string literals in [common/types]. *)
Abbreviation KeyboardAction := string.

(** [KeyBinding] of [common/types]: a [+]-joined combination and an action. *)
Record KeyBinding := mkKeyBinding {
  keys : string;
  action : KeyboardAction;
}.

(** The five sets imported from [../util].  Their members are not part of
    this file; every definition below takes them as an interface. *)
Class Util := {
  allModifiers : gset string;
  controlModifiers : gset string;
  shiftModifiers : gset string;
  altModifiers : gset string;
  metaModifiers : gset string;
}.

(** [NormalizedKeyBinding = KeyBinding & { primaryKey, ... }]; the spread
    [...kb] is the field [binding]. *)
Record NormalizedKeyBinding := mkNormalized {
  binding : KeyBinding;
  primaryKey : string;
  extraNonModifierKeys : gset string;
  requireCtrl : bool;
  requireShift : bool;
  requireAlt : bool;
  requireMeta : bool;
}.

(** [e.target] is only ever compared with [document.body]. *)
Inductive EventTarget :=
  | DocumentBody
  | OtherElement (tagName : string).

Record KeyboardEvent := mkEvent {
  code : string;
  ctrlKey : bool;
  shiftKey : bool;
  altKey : bool;
  metaKey : bool;
  target : EventTarget;
}.

Inductive EventName := keydown | keyup.

(** How a statement ends: it returns a value or throws a [TypeError]. *)
Inductive Completion (A : Type) :=
  | Returned (a : A)
  | ThrewTypeError.
Arguments Returned {A} a.
Arguments ThrewTypeError {A}.

#[global] Instance EventTarget_eq_dec : EqDecision EventTarget.
Proof. solve_decision. Defined.

#[global] Instance EventName_eq_dec : EqDecision EventName.
Proof. solve_decision. Defined.

(** [String.prototype.split] with a one character separator: the result
    always has one more token than the string has separators. *)
Fixpoint split (sep : ascii) (s : string) : list string :=
  match s with
  | EmptyString => [EmptyString]
  | String c rest =>
      if Ascii.eqb c sep then EmptyString :: split sep rest
      else match split sep rest with
           | [] => [String c EmptyString]
           | tok :: toks => String c tok :: toks
           end
  end.

Section Hook.
Context `{U : Util}.
(** The type of the callbacks handed to the hook. *)
Context {Handler : Type}.

(** *** The arguments of the hook and its refs *)

Record Props := mkProps {
  keyBindings : list KeyBinding;
  keyUpActions : gmap string Handler;
  getKeyboardAction : KeyboardAction → option Handler;
  exportConfirmOpen : bool;
}.

Record Refs := mkRefs {
  altActionRef : bool;
  nonModifierKeysDownRef : gset string;
}.

(** What a listener does to the outside. *)
Inductive Effect :=
  | Call (fn : Handler)
  | CloseExportConfirm
  | PreventDefault
  | StopPropagation.

(** *** A state and log monad for the listeners *)

(** A listener reads and writes the refs and acts on the outside.  Every
    effect is logged in program order, together with the refs as they are
    at the moment it happens. *)
Definition M (A : Type) : Type := Refs → A * Refs * list (Effect * Refs).

#[local] Instance M_ret : MRet M := λ A x r, (x, r, []).
#[local] Instance M_bind : MBind M := λ A B f m r,
  let '(x, r1, log1) := m r in
  let '(y, r2, log2) := f x r1 in
  (y, r2, log1 ++ log2).

Definition emit (ef : Effect) : M unit := λ r, (tt, r, [(ef, r)]).
Definition readRefs : M Refs := λ r, (r, r, []).
Definition setAltAction (b : bool) : M unit :=
  λ r, (tt, mkRefs b (nonModifierKeysDownRef r), []).
Definition updatePressed (f : gset string → gset string) : M unit :=
  λ r, (tt, mkRefs (altActionRef r) (f (nonModifierKeysDownRef r)), []).
Definition when (b : bool) (m : M unit) : M unit :=
  if b then m else mret tt.

(** Final refs and log of a computation. *)
Definition exec {A} (m : M A) (r : Refs) : Refs * list Effect :=
  let '(_, r', log) := m r in (r', fst <$> log).

(** The log of a computation, each effect with the refs at its moment. *)
Definition execAt {A} (m : M A) (r : Refs) : list (Effect * Refs) :=
  let '(_, _, log) := m r in log.

(** *** The binding index *)

Definition isModifierKey (key : string) : bool :=
  bool_decide (key ∈ allModifiers).

(** The members a plain object [{}] inherits from [Object.prototype].
    Read by bracket access each of them is a function, or for [__proto__]
    the prototype itself: truthy, and without a [push]. *)
Definition objectPrototypeMembers : gset string :=
  {[ "constructor"; "hasOwnProperty"; "isPrototypeOf"; "propertyIsEnumerable";
     "toLocaleString"; "toString"; "valueOf"; "__proto__";
     "__defineGetter__"; "__defineSetter__"; "__lookupGetter__";
     "__lookupSetter__" ]}.

(** The callback of [keyBindings.reduce], lines 112-138, on the own
    properties of [acc].  [acc[primaryKey]] is read through the prototype:
    an own candidate list is pushed to; a key that is neither own nor
    inherited reads as [undefined], and its list is created before the
    [push]; an inherited member is truthy, so line 135 creates no list, and
    [acc[primaryKey].push] at line 136 is not a function: the callback
    throws. *)
Definition reduceCallback (acc : gmap string (list NormalizedKeyBinding))
    (kb : KeyBinding) : Completion (gmap string (list NormalizedKeyBinding)) :=
  let keys := split "+" (keys kb) in
  let nonModifierKeys := filter (λ key, ¬ key ∈ allModifiers) keys in
  if bool_decide (length nonModifierKeys = 0) then Returned acc else
  match last nonModifierKeys with
  | None => Returned acc
  | Some primaryKey =>
      let extraNonModifierKeys : gset string :=
        list_to_set (removelast nonModifierKeys) in
      let requireCtrl := existsb (λ key, bool_decide (key ∈ controlModifiers)) keys in
      let requireShift := existsb (λ key, bool_decide (key ∈ shiftModifiers)) keys in
      let requireAlt := existsb (λ key, bool_decide (key ∈ altModifiers)) keys in
      let requireMeta := existsb (λ key, bool_decide (key ∈ metaModifiers)) keys in
      let normalized :=
        mkNormalized kb primaryKey extraNonModifierKeys
          requireCtrl requireShift requireAlt requireMeta in
      match acc !! primaryKey with
      | Some candidates =>
          Returned (<[primaryKey := candidates ++ [normalized]]> acc)
      | None =>
          if bool_decide (primaryKey ∈ objectPrototypeMembers) then ThrewTypeError
          else Returned (<[primaryKey := [normalized]]> acc)
      end
  end.

(** [keyBindings.reduce(callback, acc)]: a throw of the callback ends it. *)
Fixpoint reduceFrom (acc : gmap string (list NormalizedKeyBinding))
    (keyBindings : list KeyBinding)
    : Completion (gmap string (list NormalizedKeyBinding)) :=
  match keyBindings with
  | [] => Returned acc
  | kb :: rest =>
      match reduceCallback acc kb with
      | Returned acc' => reduceFrom acc' rest
      | ThrewTypeError => ThrewTypeError
      end
  end.

(** The statement [const keyBindingsByPrimaryKey = keyBindings.reduce(...)]
    at the head of the effect, lines 112-138. *)
Definition reduceKeyBindings (keyBindings : list KeyBinding)
    : Completion (gmap string (list NormalizedKeyBinding)) :=
  reduceFrom ∅ keyBindings.

(** The callback where it returns: the step on the own properties. *)
Definition indexStep (acc : gmap string (list NormalizedKeyBinding))
    (kb : KeyBinding) : gmap string (list NormalizedKeyBinding) :=
  let keys := split "+" (keys kb) in
  let nonModifierKeys := filter (λ key, ¬ key ∈ allModifiers) keys in
  if bool_decide (length nonModifierKeys = 0) then acc else
  match last nonModifierKeys with
  | None => acc
  | Some primaryKey =>
      let extraNonModifierKeys : gset string :=
        list_to_set (removelast nonModifierKeys) in
      let requireCtrl := existsb (λ key, bool_decide (key ∈ controlModifiers)) keys in
      let requireShift := existsb (λ key, bool_decide (key ∈ shiftModifiers)) keys in
      let requireAlt := existsb (λ key, bool_decide (key ∈ altModifiers)) keys in
      let requireMeta := existsb (λ key, bool_decide (key ∈ metaModifiers)) keys in
      let normalized :=
        mkNormalized kb primaryKey extraNonModifierKeys
          requireCtrl requireShift requireAlt requireMeta in
      <[primaryKey := default [] (acc !! primaryKey) ++ [normalized]]> acc
  end.

(** The index that the listeners close over.  The effect adds the
    listeners after the [reduce] has returned, and the object it returned
    has these own properties (see [reduce_returns_index] below);
    [handleKeyEvent] reads it at [e.code], the code of a physical key. *)
Definition keyBindingsByPrimaryKey (keyBindings : list KeyBinding)
    : gmap string (list NormalizedKeyBinding) :=
  foldl indexStep ∅ keyBindings.

(** *** Matching *)

(** The predicate handed to [find], lines 179-188. *)
Definition chordHolds (e : KeyboardEvent) (pressedNonModifiers : gset string)
    (kb : NormalizedKeyBinding) : bool :=
  if negb (Bool.eqb (requireCtrl kb) (ctrlKey e)) then false
  else if negb (Bool.eqb (requireShift kb) (shiftKey e)) then false
  else if negb (Bool.eqb (requireAlt kb) (altKey e)) then false
  else if negb (Bool.eqb (requireMeta kb) (metaKey e)) then false
  else forallb (λ requiredKey, bool_decide (requiredKey ∈ pressedNonModifiers))
         (elements (extraNonModifierKeys kb)).

Definition matchingKeyBinding
    (index : gmap string (list NormalizedKeyBinding))
    (pressedNonModifiers : gset string) (e : KeyboardEvent)
    : option NormalizedKeyBinding :=
  List.find (chordHolds e pressedNonModifiers) (default [] (index !! code e)).

(** *** The handlers *)

(** [action && keyUpActions[action]] and [action && getKeyboardAction(action)]
    are binds on [option]: [action] is [undefined] when no binding was
    found, and no member of the [KeyboardAction] union is the empty
    string.  A callback is assumed to return; its call is one log entry. *)

(** [onKeyUp2], lines 36-39. *)
Definition onKeyUp2 (p : Props) (action : option KeyboardAction) : M unit :=
  match action ≫= (λ a, keyUpActions p !! a) with
  | Some fn => emit (Call fn)
  | None => mret tt
  end.

(** [onKeyDown2], lines 41-88. *)
Definition onKeyDown2 (p : Props) (e : KeyboardEvent)
    (action : option KeyboardAction) : M unit :=
  let isEscape := bool_decide (code e = "Escape") in
  if exportConfirmOpen p && isEscape then
    emit CloseExportConfirm ;; emit PreventDefault ;; emit StopPropagation
  else if exportConfirmOpen p && negb (bool_decide (action = Some "export")) then
    mret tt
  else if negb (bool_decide (target e = DocumentBody)) then
    mret tt
  else
    match action ≫= getKeyboardAction p with
    | Some matchingFn =>
        emit (Call matchingFn) ;;
        emit PreventDefault ;;
        emit StopPropagation ;;
        when (altKey e) (setAltAction true)
    | None => mret tt
    end.

(** *** The listener *)

(** [handleKeyEvent], lines 150-194.  The wrappers [onKeyDown] and
    [onKeyUp] call [onKeyDownRef.current] and [onKeyUpRef.current], which
    hold [onKeyDown2] and [onKeyUp2] of the current render: the effects
    that fill them are declared, and so run, before the effect that adds
    the listeners. *)
Definition handleKeyEvent (p : Props) (e : KeyboardEvent) (ev : EventName)
    : M unit :=
  r ← readRefs;
  when (bool_decide (ev = keyup) && altActionRef r
        && (bool_decide (code e = "AltLeft") || bool_decide (code e = "AltRight")))
    (emit PreventDefault ;; setAltAction false) ;;
  let isModifier := isModifierKey (code e) in
  when (bool_decide (ev = keydown) && negb isModifier)
    (updatePressed (λ s, {[code e]} ∪ s)) ;;
  if isModifier then mret tt else
  r ← readRefs;
  let pressedNonModifiers := nonModifierKeysDownRef r in
  let found :=
    matchingKeyBinding (keyBindingsByPrimaryKey (keyBindings p))
      pressedNonModifiers e in
  let act := (λ kb, action (binding kb)) <$> found in
  (if bool_decide (ev = keyup) then onKeyUp2 p act else onKeyDown2 p e act) ;;
  when (bool_decide (ev = keyup)) (updatePressed (λ s, s ∖ {[code e]})).

(** *** The host: what reaches the hook, one occurrence at a time *)

(** The document delivers [keydown] and [keyup], the window delivers
    [blur], and a render hands the hook new arguments; the refs survive a
    render, and the index is that of the current [keyBindings]. *)
Inductive HostEvent :=
  | KeyDown (e : KeyboardEvent)
  | KeyUp (e : KeyboardEvent)
  | WindowBlur
  | Render (p : Props).

Record Hook := mkHook {
  props : Props;
  refs : Refs;
}.

(** The [blur] listener, lines 219-226. *)
Definition clearPressedNonModifiers : M unit := updatePressed (λ _, ∅).

(** The first render: [useRef(false)] and [useRef(new Set())]. *)
Definition mount (p : Props) : Hook := mkHook p (mkRefs false ∅).

Definition hostStep (h : Hook) (he : HostEvent) : Hook * list Effect :=
  match he with
  | KeyDown e =>
      let '(r, log) := exec (handleKeyEvent (props h) e keydown) (refs h) in
      (mkHook (props h) r, log)
  | KeyUp e =>
      let '(r, log) := exec (handleKeyEvent (props h) e keyup) (refs h) in
      (mkHook (props h) r, log)
  | WindowBlur =>
      let '(r, log) := exec clearPressedNonModifiers (refs h) in
      (mkHook (props h) r, log)
  | Render p => (mkHook p (refs h), [])
  end.

Fixpoint hostRun (h : Hook) (hes : list HostEvent) : Hook * list Effect :=
  match hes with
  | [] => (h, [])
  | he :: rest =>
      let '(h1, log1) := hostStep h he in
      let '(h2, log2) := hostRun h1 rest in
      (h2, log1 ++ log2)
  end.

End Hook.

Arguments Props : clear implicits.
Arguments Effect : clear implicits.
Arguments Hook : clear implicits.
Arguments HostEvent : clear implicits.
Arguments M : clear implicits.

(** ** Derived notions used in the statements *)

Section Notions.
Context `{U : Util} {Handler : Type}.

(** The tokens of a combination and those of them that are not modifier
    names ([keys] and [nonModifierKeys] in the [reduce] callback). *)
Definition tokensOf (kb : KeyBinding) : list string := split "+" (keys kb).

Definition nonModifierKeysOf (kb : KeyBinding) : list string :=
  filter (λ key, ¬ key ∈ allModifiers) (tokensOf kb).

(** The entry the [reduce] callback pushes for one raw binding, if any. *)
Definition normalize (kb : KeyBinding) : option NormalizedKeyBinding :=
  match last (nonModifierKeysOf kb) with
  | None => None
  | Some primaryKey =>
      Some (mkNormalized kb primaryKey
              (list_to_set (removelast (nonModifierKeysOf kb)))
              (existsb (λ key, bool_decide (key ∈ controlModifiers)) (tokensOf kb))
              (existsb (λ key, bool_decide (key ∈ shiftModifiers)) (tokensOf kb))
              (existsb (λ key, bool_decide (key ∈ altModifiers)) (tokensOf kb))
              (existsb (λ key, bool_decide (key ∈ metaModifiers)) (tokensOf kb)))
  end.

(** The chord condition, as a proposition. *)
Definition chord (e : KeyboardEvent) (pressed : gset string)
    (kb : NormalizedKeyBinding) : Prop :=
  requireCtrl kb = ctrlKey e ∧ requireShift kb = shiftKey e ∧
  requireAlt kb = altKey e ∧ requireMeta kb = metaKey e ∧
  extraNonModifierKeys kb ⊆ pressed.

(** The pressed-key set the lookup of [handleKeyEvent] reads. *)
Definition pressedAtMatch (r : Refs) (e : KeyboardEvent)
    (ev : EventName) : gset string :=
  match ev with
  | keydown => {[code e]} ∪ nonModifierKeysDownRef r
  | keyup => nonModifierKeysDownRef r
  end.

(** The binding [handleKeyEvent] selects for an event of a key that is
    not a modifier. *)
Definition selected (p : Props Handler) (r : Refs)
    (e : KeyboardEvent) (ev : EventName) : option NormalizedKeyBinding :=
  matchingKeyBinding (keyBindingsByPrimaryKey (keyBindings p))
    (pressedAtMatch r e ev) e.

Definition actionOf (found : option NormalizedKeyBinding)
    : option KeyboardAction :=
  (λ kb, action (binding kb)) <$> found.

(** The first statement of [handleKeyEvent], on its own. *)
Definition altMenuStep (e : KeyboardEvent) (ev : EventName)
    (r : Refs) : Refs * list (Effect Handler) :=
  if bool_decide (ev = keyup) && altActionRef r
     && (bool_decide (code e = "AltLeft") || bool_decide (code e = "AltRight"))
  then (mkRefs false (nonModifierKeysDownRef r), [PreventDefault])
  else (r, []).

(** An event is consumed when both its default action and its
    propagation were stopped. *)
Definition consumed (log : list (Effect Handler)) : Prop :=
  PreventDefault ∈ log ∧ StopPropagation ∈ log.

Definition isCall (ef : Effect Handler) : bool :=
  match ef with Call _ => true | _ => false end.

(** Some action callback was invoked. *)
Definition dispatched (log : list (Effect Handler)) : Prop :=
  ∃ fn, Call fn ∈ log.

Definition runEvent (p : Props Handler) (e : KeyboardEvent) (ev : EventName)
    (r : Refs) : Refs * list (Effect Handler) :=
  exec (handleKeyEvent p e ev) r.

(** The effects of the listener, each with the refs at its moment. *)
Definition runEventAt (p : Props Handler) (e : KeyboardEvent) (ev : EventName)
    (r : Refs) : list (Effect Handler * Refs) :=
  execAt (handleKeyEvent p e ev) r.

(** The same event delivered to another element. *)
Definition withTarget (e : KeyboardEvent) (t : EventTarget) : KeyboardEvent :=
  mkEvent (code e) (ctrlKey e) (shiftKey e) (altKey e) (metaKey e) t.

(** The same props with another state of the confirmation dialog. *)
Definition withConfirmOpen (p : Props Handler) (b : bool) : Props Handler :=
  mkProps (keyBindings p) (keyUpActions p) (getKeyboardAction p) b.

(** The binding selected on key-down passes both gates of [onKeyDown2]
    and the registry resolves its action to the callback [fn]. *)
Definition passes (p : Props Handler) (r : Refs) (e : KeyboardEvent)
    (fn : Handler) : Prop :=
  ∃ kb, selected p r e keydown = Some kb ∧
        (exportConfirmOpen p = true → action (binding kb) = "export") ∧
        target e = DocumentBody ∧
        getKeyboardAction p (action (binding kb)) = Some fn.

(** The Escape branch of [onKeyDown2]. *)
Definition escapeClosesDialog (p : Props Handler) (e : KeyboardEvent) : Prop :=
  exportConfirmOpen p = true ∧ code e = "Escape".

Definition pressedOf (h : Hook Handler) : gset string :=
  nonModifierKeysDownRef (refs h).

(** The raw binding has no entry in the index. *)
Definition excludedFromIndex (index : gmap string (list NormalizedKeyBinding))
    (kb : KeyBinding) : Prop :=
  ∀ k l nb, index !! k = Some l → nb ∈ l → binding nb ≠ kb.

(** The primary key of the raw binding, its last token that is not a
    modifier name, names a member inherited from [Object.prototype]. *)
Definition inheritedPrimaryKey (kb : KeyBinding) : Prop :=
  match last (nonModifierKeysOf kb) with
  | Some primaryKey => primaryKey ∈ objectPrototypeMembers
  | None => False
  end.

(** No own property of the object shadows an inherited member. *)
Definition ownKeysClean (acc : gmap string (list NormalizedKeyBinding)) : Prop :=
  ∀ k, is_Some (acc !! k) → k ∉ objectPrototypeMembers.

(** [he] is a key event, down or up, of the key [c]. *)
Definition keyEventOf (c : string) (he : HostEvent Handler) : Prop :=
  match he with
  | KeyDown e | KeyUp e => code e = c
  | _ => False
  end.

(** The most recent key event of [c] in [hes] was a key-down and the
    window was not blurred since. *)
Definition lastDown (c : string) (hes : list (HostEvent Handler)) : Prop :=
  ∃ before e after,
    hes = before ++ KeyDown e :: after ∧ code e = c ∧
    Forall (λ he, he ≠ WindowBlur ∧ ¬ keyEventOf c he) after.

End Notions.

(** Modelled from the spec: the members of the five modifier sets, which
    [useKeyboard.ts] imports from [../util].  Section 4.1 asks that the
    left and right variants of a modifier count as the logical modifier;
    the combinations of the spec name the logical modifiers [ctrl],
    [shift], [alt] and [meta], and [handleKeyEvent] itself names the codes
    [AltLeft] and [AltRight].  The general statements below hold for any
    five sets; this instance serves the concrete examples. *)
Definition utilModifiers : Util := {|
  allModifiers :=
    {[ "shift"; "ShiftLeft"; "ShiftRight"; "ctrl"; "ControlLeft"; "ControlRight";
       "alt"; "AltLeft"; "AltRight"; "meta"; "MetaLeft"; "MetaRight" ]};
  controlModifiers := {[ "ctrl"; "ControlLeft"; "ControlRight" ]};
  shiftModifiers := {[ "shift"; "ShiftLeft"; "ShiftRight" ]};
  altModifiers := {[ "alt"; "AltLeft"; "AltRight" ]};
  metaModifiers := {[ "meta"; "MetaLeft"; "MetaRight" ]};
|}.

(** A registry for the examples: every action resolves to a callback named
    after it, and [seekForwards] has a release callback. *)
Definition exampleProps (kbs : list KeyBinding) (confirmOpen : bool)
    : Props string :=
  mkProps kbs {[ "seekForwards" := "seekReset" ]} (λ a, Some a) confirmOpen.

Definition keyEvent (c : string) (ctrl shift alt meta : bool)
    (t : EventTarget) : KeyboardEvent :=
  mkEvent c ctrl shift alt meta t.

Definition plainKey (c : string) : KeyboardEvent :=
  mkEvent c false false false false DocumentBody.

Definition noRefs : Refs := mkRefs false ∅.

(** ** Notions for the further properties *)

(** [Array.prototype.join] with a one character separator, the inverse of
    [split]. *)
Fixpoint join (sep : ascii) (toks : list string) : string :=
  match toks with
  | [] => EmptyString
  | tok :: rest =>
      match rest with
      | [] => tok
      | _ => tok +:+ String sep (join sep rest)
      end
  end.

(** The character [c] occurs in [s]. *)
Fixpoint hasChar (c : ascii) (s : string) : bool :=
  match s with
  | EmptyString => false
  | String c' rest => Ascii.eqb c' c || hasChar c rest
  end.

(** Number of occurrences of [c] in [s]. *)
Fixpoint countChar (c : ascii) (s : string) : nat :=
  match s with
  | EmptyString => 0
  | String c' rest => (if Ascii.eqb c' c then 1 else 0) + countChar c rest
  end.

(** Number of callbacks invoked by a listener. *)
Definition callCount {Handler : Type} (log : list (Effect Handler)) : nat :=
  length (List.filter isCall log).

(** Number of entries of an index, over all its keys. *)
Definition indexSize (index : gmap string (list NormalizedKeyBinding)) : nat :=
  map_fold (λ _ l n, length l + n) 0 index.

(** The four require flags and the extra keys of two normalized bindings
    agree. *)
Definition sameChord (n1 n2 : NormalizedKeyBinding) : Prop :=
  primaryKey n1 = primaryKey n2 ∧
  extraNonModifierKeys n1 = extraNonModifierKeys n2 ∧
  requireCtrl n1 = requireCtrl n2 ∧ requireShift n1 = requireShift n2 ∧
  requireAlt n1 = requireAlt n2 ∧ requireMeta n1 = requireMeta n2.

(** ** The binding index *)

Section Index.
Context `{U : Util}.

Lemma indexStep_normalize acc kb :
  indexStep acc kb =
  match normalize kb with
  | None => acc
  | Some nb => <[primaryKey nb := default [] (acc !! primaryKey nb) ++ [nb]]> acc
  end.
Proof.
  unfold indexStep, normalize, nonModifierKeysOf, tokensOf.
  destruct (filter _ (split "+" (keys kb))) as [|tok toks]; [done|].
  rewrite bool_decide_eq_false_2 by done.
  by destruct (last (tok :: toks)).
Qed.

Lemma normalize_None kb : normalize kb = None ↔ nonModifierKeysOf kb = [].
Proof.
  unfold normalize. destruct (nonModifierKeysOf kb) as [|tok toks] eqn:E.
  - done.
  - destruct (last (tok :: toks)) eqn:L; [done|].
    apply last_None in L. done.
Qed.

Lemma nonModifierKeysOf_nil kb :
  nonModifierKeysOf kb = [] ↔ Forall (λ tok, tok ∈ allModifiers) (tokensOf kb).
Proof.
  unfold nonModifierKeysOf. induction (tokensOf kb) as [|tok toks IH].
  - split; [constructor | done].
  - rewrite filter_cons. destruct (decide (¬ tok ∈ allModifiers)) as [Hn|Hy].
    + split; [done|]. intros HF. apply Forall_cons in HF as [? _]. done.
    + apply dec_stable in Hy. rewrite IH, Forall_cons. tauto.
Qed.

Lemma normalize_primaryKey kb nb :
  normalize kb = Some nb → last (nonModifierKeysOf kb) = Some (primaryKey nb).
Proof.
  unfold normalize. destruct (last (nonModifierKeysOf kb)); [|done].
  by intros [= <-].
Qed.

Lemma normalize_binding kb nb : normalize kb = Some nb → binding nb = kb.
Proof.
  unfold normalize. destruct (last (nonModifierKeysOf kb)); [|done].
  by intros [= <-].
Qed.

Lemma existsb_elem_of (S : gset string) (toks : list string) :
  existsb (λ key, bool_decide (key ∈ S)) toks = true ↔ ∃ tok, tok ∈ toks ∧ tok ∈ S.
Proof.
  rewrite existsb_exists. split.
  - intros (tok & Hin & Hb). exists tok. split.
    + by apply list_elem_of_In.
    + by apply bool_decide_eq_true in Hb.
  - intros (tok & Hin & Hs). exists tok. split.
    + by apply list_elem_of_In.
    + by apply bool_decide_eq_true.
Qed.

Lemma lookup_indexStep acc kb k :
  default [] (indexStep acc kb !! k) =
  default [] (acc !! k)
    ++ filter (λ nb, primaryKey nb = k) (option_list (normalize kb)).
Proof.
  rewrite indexStep_normalize. destruct (normalize kb) as [nb|]; simpl.
  - rewrite filter_cons, filter_nil.
    destruct (decide (primaryKey nb = k)) as [<-|Hne].
    + by rewrite lookup_insert_eq.
    + rewrite lookup_insert_ne by done. by rewrite app_nil_r.
  - by rewrite filter_nil, app_nil_r.
Qed.

Lemma lookup_foldl_indexStep kbs acc k :
  default [] (foldl indexStep acc kbs !! k) =
  default [] (acc !! k) ++ filter (λ nb, primaryKey nb = k) (omap normalize kbs).
Proof.
  revert acc. induction kbs as [|kb kbs IH]; intros acc; simpl.
  - by rewrite filter_nil, app_nil_r.
  - rewrite IH, lookup_indexStep, <- app_assoc. f_equal.
    destruct (normalize kb) as [nb|]; simpl; [|done].
    rewrite !filter_cons, filter_nil. by destruct (decide _).
Qed.

(** The candidates of a key are the normalized bindings with that primary
    key, in the order of the raw bindings. *)
Lemma index_candidates kbs k :
  default [] (keyBindingsByPrimaryKey kbs !! k) =
  filter (λ nb, primaryKey nb = k) (omap normalize kbs).
Proof.
  unfold keyBindingsByPrimaryKey.
  by rewrite lookup_foldl_indexStep, lookup_empty.
Qed.

Lemma indexStep_nonempty acc kb :
  map_Forall (λ _ l, l ≠ []) acc → map_Forall (λ _ l, l ≠ []) (indexStep acc kb).
Proof.
  intros Hacc. rewrite indexStep_normalize.
  destruct (normalize kb) as [nb|]; [|done].
  apply map_Forall_insert_2; [|done].
  by destruct (default [] (acc !! primaryKey nb)).
Qed.

Lemma index_nonempty kbs k l :
  keyBindingsByPrimaryKey kbs !! k = Some l → l ≠ [].
Proof.
  unfold keyBindingsByPrimaryKey.
  assert (map_Forall (λ _ (l : list NormalizedKeyBinding), l ≠ [])
            (∅ : gmap string (list NormalizedKeyBinding))) as H0
    by apply map_Forall_empty.
  revert H0. generalize (∅ : gmap string (list NormalizedKeyBinding)).
  induction kbs as [|kb kbs IH]; intros acc Hacc Hl; simpl in *.
  - by eapply Hacc.
  - eapply IH; [|done]. by apply indexStep_nonempty.
Qed.

Lemma index_lookup_Some kbs k l :
  keyBindingsByPrimaryKey kbs !! k = Some l ↔
  l ≠ [] ∧ l = filter (λ nb, primaryKey nb = k) (omap normalize kbs).
Proof.
  split.
  - intros Hl. split; [by eapply index_nonempty|].
    by rewrite <- index_candidates, Hl.
  - intros [Hne ->]. rewrite <- index_candidates in *.
    by destruct (keyBindingsByPrimaryKey kbs !! k).
Qed.

Lemma index_entry kbs k l nb :
  keyBindingsByPrimaryKey kbs !! k = Some l → nb ∈ l →
  primaryKey nb = k ∧ ∃ kb, kb ∈ kbs ∧ normalize kb = Some nb.
Proof.
  intros Hl Hnb. apply index_lookup_Some in Hl as [_ ->].
  apply list_elem_of_filter in Hnb as [Hk Hnb].
  apply list_elem_of_omap in Hnb. done.
Qed.

Lemma index_has_entry kbs kb nb :
  kb ∈ kbs → normalize kb = Some nb →
  ∃ l, keyBindingsByPrimaryKey kbs !! primaryKey nb = Some l ∧ nb ∈ l.
Proof.
  intros Hkb Hn.
  assert (nb ∈ default [] (keyBindingsByPrimaryKey kbs !! primaryKey nb)) as Hin.
  { rewrite index_candidates. apply list_elem_of_filter. split; [done|].
    apply list_elem_of_omap. eauto. }
  destruct (keyBindingsByPrimaryKey kbs !! primaryKey nb) as [l|]; simpl in *.
  - eauto.
  - by apply elem_of_nil in Hin.
Qed.

End Index.

(** ** Matching *)

Section Matching.
Context `{U : Util}.

Lemma chordHolds_chord e pressed kb :
  chordHolds e pressed kb = true ↔ chord e pressed kb.
Proof.
  unfold chordHolds, chord.
  assert (forallb (λ requiredKey, bool_decide (requiredKey ∈ pressed))
            (elements (extraNonModifierKeys kb)) = true
          ↔ extraNonModifierKeys kb ⊆ pressed) as Hsub.
  { rewrite forallb_forall. split.
    - intros Hall x Hx. apply elem_of_elements, list_elem_of_In in Hx.
      by apply Hall, bool_decide_eq_true in Hx.
    - intros Hsub x Hx. apply bool_decide_eq_true, Hsub.
      by apply elem_of_elements, list_elem_of_In. }
  destruct (Bool.eqb_spec (requireCtrl kb) (ctrlKey e)) as [Hc|Hc]; simpl;
    [|by split; [|intros (? & _)]].
  destruct (Bool.eqb_spec (requireShift kb) (shiftKey e)) as [Hs|Hs]; simpl;
    [|by split; [|intros (_ & ? & _)]].
  destruct (Bool.eqb_spec (requireAlt kb) (altKey e)) as [Ha|Ha]; simpl;
    [|by split; [|intros (_ & _ & ? & _)]].
  destruct (Bool.eqb_spec (requireMeta kb) (metaKey e)) as [Hm|Hm]; simpl;
    [|by split; [|intros (_ & _ & _ & ? & _)]].
  rewrite Hsub. split; [by intros ? | by intros (_ & _ & _ & _ & ?)].
Qed.

Lemma chordHolds_false e pressed kb :
  chordHolds e pressed kb = false ↔ ¬ chord e pressed kb.
Proof.
  rewrite <- chordHolds_chord. by destruct (chordHolds e pressed kb).
Qed.

(** [Array.prototype.find] returns the first element that passes. *)
Lemma find_first {A} (f : A → bool) (l : list A) :
  match List.find f l with
  | Some x =>
      ∃ before after,
        l = before ++ x :: after ∧ f x = true ∧
        Forall (λ y, f y = false) before
  | None => Forall (λ y, f y = false) l
  end.
Proof.
  induction l as [|y l IH]; simpl.
  - constructor.
  - destruct (f y) eqn:Hy.
    + exists [], l. by repeat split.
    + destruct (List.find f l) as [x|].
      * destruct IH as (before & after & -> & Hx & Hbefore).
        exists (y :: before), after. repeat split; [done|].
        by constructor.
      * by constructor.
Qed.

Lemma matching_first index pressed e :
  match matchingKeyBinding index pressed e with
  | Some kb =>
      ∃ before after,
        default [] (index !! code e) = before ++ kb :: after ∧
        chord e pressed kb ∧
        Forall (λ kb', ¬ chord e pressed kb') before
  | None => Forall (λ kb', ¬ chord e pressed kb') (default [] (index !! code e))
  end.
Proof.
  unfold matchingKeyBinding.
  pose proof (find_first (chordHolds e pressed) (default [] (index !! code e))) as Hf.
  destruct (List.find _ _) as [kb|].
  - destruct Hf as (before & after & Hl & Hkb & Hbefore).
    exists before, after. split; [done|]. split; [by apply chordHolds_chord|].
    eapply Forall_impl; [exact Hbefore|]. intros kb'. apply chordHolds_false.
  - eapply Forall_impl; [exact Hf|]. intros kb'. apply chordHolds_false.
Qed.

Lemma matching_Some index pressed e kb :
  matchingKeyBinding index pressed e = Some kb →
  kb ∈ default [] (index !! code e) ∧ chord e pressed kb.
Proof.
  intros Hm. pose proof (matching_first index pressed e) as Hf.
  rewrite Hm in Hf. destruct Hf as (before & after & -> & Hkb & _).
  split; [|done]. apply elem_of_app. right. by left.
Qed.

Lemma matching_Some_index kbs pressed e kb :
  matchingKeyBinding (keyBindingsByPrimaryKey kbs) pressed e = Some kb →
  primaryKey kb = code e ∧ chord e pressed kb ∧
  ∃ raw, raw ∈ kbs ∧ normalize raw = Some kb.
Proof.
  intros Hm. apply matching_Some in Hm as [Hin Hc].
  rewrite index_candidates in Hin.
  apply list_elem_of_filter in Hin as [Hk Hin].
  apply list_elem_of_omap in Hin. done.
Qed.

End Matching.

(** ** The handlers and the listener in closed form *)

Section Listener.
Context `{U : Util} {Handler : Type}.
Implicit Types (p : Props Handler) (r : Refs) (e : KeyboardEvent).

Lemma onKeyUp2_exec p act r :
  exec (onKeyUp2 p act) r =
  (r, match act ≫= (λ a, keyUpActions p !! a) with
      | Some fn => [Call fn]
      | None => []
      end).
Proof. unfold onKeyUp2. by destruct (act ≫= _). Qed.

Lemma onKeyDown2_exec p e act r :
  exec (onKeyDown2 p e act) r =
  if exportConfirmOpen p && bool_decide (code e = "Escape")
  then (r, [CloseExportConfirm; PreventDefault; StopPropagation])
  else if exportConfirmOpen p && negb (bool_decide (act = Some "export"))
  then (r, [])
  else if negb (bool_decide (target e = DocumentBody)) then (r, [])
  else match act ≫= getKeyboardAction p with
       | Some fn =>
           (mkRefs (altKey e || altActionRef r) (nonModifierKeysDownRef r),
            [Call fn; PreventDefault; StopPropagation])
       | None => (r, [])
       end.
Proof.
  unfold onKeyDown2.
  destruct (exportConfirmOpen p && bool_decide (code e = "Escape")); [done|].
  destruct (exportConfirmOpen p && negb (bool_decide (act = Some "export"))); [done|].
  destruct (negb (bool_decide (target e = DocumentBody))); [done|].
  destruct (act ≫= getKeyboardAction p); [|done].
  destruct r as [alt pressed]. by destruct (altKey e).
Qed.

(** An event of a modifier key stops after the Alt menu step. *)
Lemma runEvent_modifier p e ev r :
  code e ∈ allModifiers → runEvent p e ev r = altMenuStep e ev r.
Proof.
  intros Hmod. unfold runEvent, handleKeyEvent, altMenuStep, isModifierKey.
  rewrite (bool_decide_eq_true_2 _ Hmod). destruct r as [alt pressed].
  destruct ev; simpl; [done|].
  by destruct alt, (bool_decide (code e = "AltLeft")),
    (bool_decide (code e = "AltRight")).
Qed.

(** Key-down of any other key: the code joins the pressed keys, then the
    lookup runs, then [onKeyDown2]. *)
Lemma runEvent_keydown p e r :
  code e ∉ allModifiers →
  runEvent p e keydown r =
  exec (onKeyDown2 p e (actionOf (selected p r e keydown)))
    (mkRefs (altActionRef r) ({[code e]} ∪ nonModifierKeysDownRef r)).
Proof.
  intros Hmod. unfold runEvent, handleKeyEvent, isModifierKey.
  rewrite (bool_decide_eq_false_2 _ Hmod). destruct r as [alt pressed].
  unfold selected, actionOf, pressedAtMatch; simpl.
  unfold exec, mbind, M_bind, readRefs, when, updatePressed; simpl.
  destruct (onKeyDown2 _ _ _ _) as [[[] r1] log1]. simpl.
  by rewrite app_nil_r.
Qed.

(** Key-up of any other key: the lookup reads the pressed keys as they
    are, [onKeyUp2] runs, and only then the code leaves the set. *)
Lemma runEvent_keyup p e r :
  code e ∉ allModifiers →
  runEvent p e keyup r =
  (mkRefs (altActionRef (altMenuStep (Handler:=Handler) e keyup r).1)
     (nonModifierKeysDownRef r ∖ {[code e]}),
   (altMenuStep e keyup r).2
     ++ (exec (onKeyUp2 p (actionOf (selected p r e keyup))) r).2).
Proof.
  intros Hmod. unfold runEvent, handleKeyEvent, altMenuStep, isModifierKey.
  rewrite (bool_decide_eq_false_2 _ Hmod). destruct r as [alt pressed].
  unfold selected, actionOf, pressedAtMatch; simpl.
  rewrite !onKeyUp2_exec. unfold onKeyUp2.
  destruct alt, (bool_decide (code e = "AltLeft")),
    (bool_decide (code e = "AltRight")); simpl.
  all: unfold exec, mbind, M_bind, readRefs, when, emit, setAltAction,
         updatePressed, mret, M_ret; simpl.
  all: by destruct (option_bind _ _ _ _).
Qed.

End Listener.

(** ** Normalization of the raw bindings *)

Section Normalizer.
Context `{U : Util}.

Lemma normalize_Some kb :
  nonModifierKeysOf kb ≠ [] → ∃ nb, normalize kb = Some nb.
Proof.
  intros Hne. destruct (normalize kb) as [nb|] eqn:Hn; [eauto|].
  by apply normalize_None in Hn.
Qed.

Lemma primaryKey_not_modifier kb nb :
  normalize kb = Some nb → primaryKey nb ∉ allModifiers.
Proof.
  intros Hn. apply normalize_primaryKey in Hn.
  apply last_Some_elem_of in Hn.
  unfold nonModifierKeysOf in Hn. by apply list_elem_of_filter in Hn as [? _].
Qed.

Lemma index_key_not_modifier kbs k l :
  keyBindingsByPrimaryKey kbs !! k = Some l → k ∉ allModifiers.
Proof.
  intros Hl. pose proof (index_nonempty _ _ _ Hl) as Hne.
  destruct l as [|nb l]; [done|].
  destruct (index_entry kbs k (nb :: l) nb Hl) as (<- & kb & _ & Hn); [by left|].
  by eapply primaryKey_not_modifier.
Qed.

Lemma excluded_iff kbs kb :
  kb ∈ kbs →
  excludedFromIndex (keyBindingsByPrimaryKey kbs) kb ↔ nonModifierKeysOf kb = [].
Proof.
  intros Hkb. split.
  - intros Hex. destruct (nonModifierKeysOf kb) as [|tok toks] eqn:E; [done|].
    destruct (normalize_Some kb) as [nb Hn]; [by rewrite E|].
    destruct (index_has_entry kbs kb nb Hkb Hn) as (l & Hl & Hin).
    exfalso. eapply Hex; [exact Hl | exact Hin |].
    by eapply normalize_binding.
  - intros Hnil k l nb Hl Hin Hb.
    destruct (index_entry kbs k l nb Hl Hin) as (_ & kb' & _ & Hn).
    apply normalize_binding in Hn as Hb'. rewrite Hb in Hb'. subst kb'.
    apply normalize_None in Hnil. congruence.
Qed.

End Normalizer.

(** ** The [reduce] and its throw *)

Section Reduce.
Context `{U : Util}.

#[local] Instance inheritedPrimaryKey_dec kb : Decision (inheritedPrimaryKey kb).
Proof. unfold inheritedPrimaryKey. destruct (last _); apply _. Defined.

Lemma inheritedPrimaryKey_normalize kb :
  inheritedPrimaryKey kb ↔
  ∃ nb, normalize kb = Some nb ∧ primaryKey nb ∈ objectPrototypeMembers.
Proof.
  unfold inheritedPrimaryKey, normalize.
  destruct (last (nonModifierKeysOf kb)) as [pk|]; simpl.
  - split; [intros Hpk; by eexists | by intros (nb & [= <-] & ?)].
  - split; [done | by intros (nb & ? & _)].
Qed.

(** The callback in terms of the normalized binding: it throws exactly
    when the primary key is not an own property and is inherited, and
    where it returns, it returns the step on the own properties. *)
Lemma reduceCallback_cases acc kb :
  reduceCallback acc kb =
  match normalize kb with
  | None => Returned acc
  | Some nb =>
      if bool_decide (acc !! primaryKey nb = None
                      ∧ primaryKey nb ∈ objectPrototypeMembers)
      then ThrewTypeError else Returned (indexStep acc kb)
  end.
Proof.
  rewrite indexStep_normalize.
  unfold reduceCallback, normalize, nonModifierKeysOf, tokensOf.
  destruct (filter _ (split "+" (keys kb))) as [|tok toks] eqn:Hf; [done|].
  rewrite bool_decide_eq_false_2 by done.
  destruct (last (tok :: toks)) as [pk|]; [|done]. cbn [primaryKey].
  destruct (decide (acc !! pk = None ∧ pk ∈ objectPrototypeMembers))
    as [[Hpk Hin]|Hno].
  - rewrite (bool_decide_eq_true_2 _ (conj Hpk Hin)), Hpk.
    by rewrite bool_decide_eq_true_2.
  - rewrite (bool_decide_eq_false_2 _ Hno).
    destruct (acc !! pk) as [cands|] eqn:Hpk; [done|].
    by rewrite bool_decide_eq_false_2 by (intros ?; by apply Hno).
Qed.

Lemma reduceCallback_clean acc kb :
  ownKeysClean acc →
  reduceCallback acc kb =
  if decide (inheritedPrimaryKey kb) then ThrewTypeError
  else Returned (indexStep acc kb).
Proof.
  intros Hclean. rewrite reduceCallback_cases.
  destruct (decide (inheritedPrimaryKey kb)) as [Hin|Hout].
  - apply inheritedPrimaryKey_normalize in Hin as (nb & -> & Hpk).
    rewrite bool_decide_eq_true_2; [done|]. split; [|done].
    destruct (acc !! primaryKey nb) eqn:Hl; [|done].
    exfalso. by apply (Hclean (primaryKey nb)).
  - destruct (normalize kb) as [nb|] eqn:Hn.
    + rewrite bool_decide_eq_false_2; [done|]. intros [_ Hpk].
      apply Hout, inheritedPrimaryKey_normalize. by exists nb.
    + by rewrite indexStep_normalize, Hn.
Qed.

Lemma indexStep_clean acc kb :
  ownKeysClean acc → ¬ inheritedPrimaryKey kb → ownKeysClean (indexStep acc kb).
Proof.
  intros Hclean Hout k Hk. rewrite indexStep_normalize in Hk.
  destruct (normalize kb) as [nb|] eqn:Hn; [|by apply Hclean].
  destruct (decide (primaryKey nb = k)) as [<-|Hne].
  - intros Hpk. apply Hout, inheritedPrimaryKey_normalize. by exists nb.
  - rewrite lookup_insert_ne in Hk by done. by apply Hclean.
Qed.

Lemma reduceFrom_clean kbs acc :
  ownKeysClean acc →
  reduceFrom acc kbs =
  if decide (Exists inheritedPrimaryKey kbs) then ThrewTypeError
  else Returned (foldl indexStep acc kbs).
Proof.
  revert acc. induction kbs as [|kb kbs IH]; intros acc Hclean; simpl.
  - destruct (decide (Exists inheritedPrimaryKey [])) as [Hex|]; [|done].
    by apply Exists_nil in Hex.
  - rewrite reduceCallback_clean by done.
    destruct (decide (inheritedPrimaryKey kb)) as [Hin|Hout].
    + by rewrite decide_True by (by left).
    + rewrite IH by (by apply indexStep_clean).
      destruct (decide (Exists inheritedPrimaryKey kbs)) as [Hex|Hno].
      * by rewrite decide_True by (by right).
      * rewrite decide_False; [done|].
        intros Hex. apply Exists_cons in Hex as [?|?]; done.
Qed.

Lemma ownKeysClean_empty : ownKeysClean ∅.
Proof. intros k [l Hl]. by rewrite lookup_empty in Hl. Qed.

Lemma reduceKeyBindings_cases kbs :
  reduceKeyBindings kbs =
  if decide (Exists inheritedPrimaryKey kbs) then ThrewTypeError
  else Returned (keyBindingsByPrimaryKey kbs).
Proof. apply reduceFrom_clean, ownKeysClean_empty. Qed.

(** Where the [reduce] returns, the object has the own properties of the
    index the listeners read. *)
Lemma reduce_returns_index kbs index :
  reduceKeyBindings kbs = Returned index →
  index = keyBindingsByPrimaryKey kbs ∧ Forall (λ kb, ¬ inheritedPrimaryKey kb) kbs.
Proof.
  rewrite reduceKeyBindings_cases.
  destruct (decide (Exists inheritedPrimaryKey kbs)) as [|Hno]; [done|].
  intros [= <-]. split; [done|]. by apply not_Exists_Forall in Hno; [|apply _].
Qed.

Lemma reduceFrom_app kbs1 kbs2 acc :
  reduceFrom acc (kbs1 ++ kbs2) =
  match reduceFrom acc kbs1 with
  | Returned acc1 => reduceFrom acc1 kbs2
  | ThrewTypeError => ThrewTypeError
  end.
Proof.
  revert acc. induction kbs1 as [|kb kbs1 IH]; intros acc; simpl; [done|].
  by destruct (reduceCallback acc kb).
Qed.

End Reduce.

(** C2: the callback misses the members a plain object inherits.  The
    combination [ctrl+constructor] has the non-modifier token
    [constructor], yet the [reduce] yields no normalized binding for it:
    line 135 finds the inherited member and creates no list, line 136
    throws, and so does the [reduce] of every table that holds the
    binding. *)
Theorem normalization_throws_on_inherited_key :
  let kb := mkKeyBinding "ctrl+constructor" "act" in
  @nonModifierKeysOf utilModifiers kb = ["constructor"] ∧
  @reduceCallback utilModifiers ∅ kb = ThrewTypeError ∧
  @reduceKeyBindings utilModifiers [kb] = ThrewTypeError ∧
  ∀ before after,
    @reduceKeyBindings utilModifiers (before ++ kb :: after) = ThrewTypeError.
Proof.
  intros kb. split; [by vm_compute|]. split; [by vm_compute|].
  split; [by vm_compute|]. intros before after.
  rewrite reduceKeyBindings_cases. rewrite decide_True; [done|].
  apply Exists_app. right. left. by vm_compute.
Qed.

(** X16: on every table for which the [reduce] returns an index, a raw
    binding with at least one token that is not a modifier name has exactly
    one normalized binding: its primary key is the last such token, its
    extra keys are the set of the earlier ones, and each of its four
    require flags holds iff some token is in the corresponding modifier
    set; the callback appends this one entry to the candidates of the
    primary key, and the candidates of a key are these entries in input
    order.  A raw binding with no such token yields no normalized binding,
    leaves the index unchanged and has no entry in it. *)
Theorem normalization_of_raw_binding `{U : Util}
    (kbs : list KeyBinding) (index : gmap string (list NormalizedKeyBinding))
    (kb : KeyBinding) :
  reduceKeyBindings kbs = Returned index →
  kb ∈ kbs →
  (nonModifierKeysOf kb ≠ [] →
   ∃ nb,
     normalize kb = Some nb ∧
     binding nb = kb ∧
     last (nonModifierKeysOf kb) = Some (primaryKey nb) ∧
     extraNonModifierKeys nb = list_to_set (removelast (nonModifierKeysOf kb)) ∧
     (requireCtrl nb = true ↔ ∃ tok, tok ∈ tokensOf kb ∧ tok ∈ controlModifiers) ∧
     (requireShift nb = true ↔ ∃ tok, tok ∈ tokensOf kb ∧ tok ∈ shiftModifiers) ∧
     (requireAlt nb = true ↔ ∃ tok, tok ∈ tokensOf kb ∧ tok ∈ altModifiers) ∧
     (requireMeta nb = true ↔ ∃ tok, tok ∈ tokensOf kb ∧ tok ∈ metaModifiers) ∧
     (∀ acc, ownKeysClean acc →
             reduceCallback acc kb =
             Returned (<[primaryKey nb :=
                           default [] (acc !! primaryKey nb) ++ [nb]]> acc)) ∧
     (∀ k, default [] (index !! k) =
           filter (λ nb', primaryKey nb' = k) (omap normalize kbs)) ∧
     nb ∈ default [] (index !! primaryKey nb)) ∧
  (nonModifierKeysOf kb = [] →
   normalize kb = None ∧
   (∀ acc, reduceCallback acc kb = Returned acc) ∧
   excludedFromIndex index kb).
Proof.
  intros Hret Hkb. apply reduce_returns_index in Hret as [-> Hall].
  rewrite Forall_forall in Hall. specialize (Hall kb Hkb). split.
  - intros Hne. destruct (normalize_Some kb Hne) as [nb Hn].
    exists nb. split; [done|].
    split; [by eapply normalize_binding|].
    split; [by apply normalize_primaryKey|].
    assert (∀ acc, ownKeysClean acc →
              reduceCallback acc kb =
              Returned (<[primaryKey nb :=
                            default [] (acc !! primaryKey nb) ++ [nb]]> acc))
      as Hstep.
    { intros acc Hclean. rewrite reduceCallback_clean by done.
      rewrite decide_False by done. by rewrite indexStep_normalize, Hn. }
    assert (nb ∈ default [] (keyBindingsByPrimaryKey kbs !! primaryKey nb)) as Hin.
    { destruct (index_has_entry kbs kb nb Hkb Hn) as (l & -> & Hl). done. }
    unfold normalize in Hn.
    destruct (last (nonModifierKeysOf kb)) as [pk|]; [|done].
    injection Hn as <-. simpl in *.
    rewrite <- !existsb_elem_of.
    repeat split; try done. intros k. apply index_candidates.
  - intros Hnil. split; [by apply normalize_None|].
    split; [|by apply excluded_iff].
    intros acc. rewrite reduceCallback_cases.
    by rewrite (proj2 (normalize_None kb) Hnil).
Qed.

Lemma normalization_of_raw_binding_witness :
  let kbG := mkKeyBinding "KeyB+ctrl+shift+KeyG" "gotoTime" in
  let kbM := mkKeyBinding "ctrl+ShiftLeft" "none" in
  (∃ index, @reduceKeyBindings utilModifiers [kbG; kbM] = Returned index ∧
            @excludedFromIndex index kbM) ∧
  (∃ nb, @normalize utilModifiers kbG = Some nb ∧ primaryKey nb = "KeyG" ∧
         extraNonModifierKeys nb = {["KeyB"]} ∧
         requireCtrl nb = true ∧ requireShift nb = true ∧
         requireAlt nb = false ∧ requireMeta nb = false).
Proof.
  intros kbG kbM.
  assert (@reduceKeyBindings utilModifiers [kbG; kbM]
          = Returned (@keyBindingsByPrimaryKey utilModifiers [kbG; kbM])) as Hret
    by (vm_compute; reflexivity).
  split.
  - eexists. split; [exact Hret|].
    apply (@normalization_of_raw_binding utilModifiers [kbG; kbM] _ kbM Hret).
    + right. by left.
    + by vm_compute.
  - destruct (@normalization_of_raw_binding utilModifiers [kbG; kbM] _ kbG Hret)
      as [(nb & Hn & _) _]; [by left | by vm_compute |].
    exists nb. split; [exact Hn|]. vm_compute in Hn. injection Hn as <-.
    vm_compute. repeat split; reflexivity.
Defined.

(** C9, as the code has it: a raw binding whose tokens are all modifier
    names is silently left out, the callback returning the index as it
    was.  On every table for which the [reduce] returns an index these are
    the only bindings left out.  The empty combination has the single
    token [""], so it is left out only if [""] is a modifier name; any
    other token that is not a modifier name counts as a key, and the
    binding is indexed under its last such token. *)
Theorem excluded_iff_only_modifiers `{U : Util}
    (kbs : list KeyBinding) (index : gmap string (list NormalizedKeyBinding))
    (kb : KeyBinding) :
  reduceKeyBindings kbs = Returned index →
  kb ∈ kbs →
  (Forall (λ tok, tok ∈ allModifiers) (tokensOf kb) →
   ∀ acc, reduceCallback acc kb = Returned acc) ∧
  (excludedFromIndex index kb ↔ Forall (λ tok, tok ∈ allModifiers) (tokensOf kb)) ∧
  (keys kb = "" → excludedFromIndex index kb ↔ "" ∈ allModifiers) ∧
  (∀ tok, tok ∈ tokensOf kb → tok ∉ allModifiers →
    ∃ nb l, index !! primaryKey nb = Some l ∧
            nb ∈ l ∧ binding nb = kb ∧
            last (nonModifierKeysOf kb) = Some (primaryKey nb) ∧
            (tok = primaryKey nb ∨ tok ∈ extraNonModifierKeys nb)).
Proof.
  intros Hret Hkb. apply reduce_returns_index in Hret as [-> _].
  assert (excludedFromIndex (keyBindingsByPrimaryKey kbs) kb ↔
          Forall (λ tok, tok ∈ allModifiers) (tokensOf kb)) as Hiff
    by (by rewrite excluded_iff, nonModifierKeysOf_nil).
  split.
  { intros Hall acc. rewrite reduceCallback_cases.
    apply nonModifierKeysOf_nil, normalize_None in Hall. by rewrite Hall. }
  split; [done|]. split.
  - intros Hempty. rewrite Hiff. unfold tokensOf. rewrite Hempty. simpl.
    rewrite Forall_singleton. done.
  - intros tok Htok Hnot.
    assert (tok ∈ nonModifierKeysOf kb) as Hin
      by (by apply list_elem_of_filter).
    destruct (normalize_Some kb) as [nb Hn].
    { intros Hnil. rewrite Hnil in Hin. by apply elem_of_nil in Hin. }
    destruct (index_has_entry kbs kb nb Hkb Hn) as (l & Hl & Hnb).
    exists nb, l. split; [done|]. split; [done|].
    split; [by eapply normalize_binding|].
    pose proof (normalize_primaryKey kb nb Hn) as Hlast.
    split; [done|].
    assert (extraNonModifierKeys nb =
            list_to_set (removelast (nonModifierKeysOf kb))) as ->.
    { clear Hlast Hl Hnb. unfold normalize in Hn.
      destruct (last (nonModifierKeysOf kb)); [|done]. by injection Hn as <-. }
    destruct (nonModifierKeysOf kb) as [|t ts] using rev_ind; [done|].
    rewrite last_snoc in Hlast. injection Hlast as ->.
    rewrite removelast_last.
    apply elem_of_app in Hin as [Hin|Hin].
    + right. by apply elem_of_list_to_set.
    + left. by apply list_elem_of_singleton in Hin.
Qed.

Lemma excluded_iff_only_modifiers_witness :
  let kb := mkKeyBinding "cmd+KeyA" "act" in
  ∃ index, @reduceKeyBindings utilModifiers [kb] = Returned index ∧
    ¬ excludedFromIndex index kb ∧
    ∃ nb l, index !! primaryKey nb = Some l ∧
            nb ∈ l ∧ binding nb = kb ∧
            ("cmd" = primaryKey nb ∨ "cmd" ∈ extraNonModifierKeys nb).
Proof.
  intros kb.
  assert (@reduceKeyBindings utilModifiers [kb]
          = Returned (@keyBindingsByPrimaryKey utilModifiers [kb])) as Hret
    by (vm_compute; reflexivity).
  eexists. split; [exact Hret|].
  destruct (@excluded_iff_only_modifiers utilModifiers [kb] _ kb Hret)
    as (_ & Hiff & _ & Htok); [by left|].
  split.
  - rewrite Hiff. intros Hall. apply Forall_cons in Hall as [Hcmd _].
    revert Hcmd. by vm_compute.
  - destruct (Htok "cmd") as (nb & l & Hl & Hnb & Hb & _ & Hcmd).
    + by left.
    + by vm_compute.
    + exists nb, l. repeat split; assumption.
Defined.

(** The claim of C9 fails: the [reduce] returns for the empty combination
    and for a combination with an unknown modifier name, and both have an
    entry in the index it returns. *)
Lemma malformed_bindings_are_indexed :
  let kbEmpty := mkKeyBinding "" "act" in
  let kbCmd := mkKeyBinding "cmd+KeyA" "act" in
  (∃ index, @reduceKeyBindings utilModifiers [kbEmpty] = Returned index ∧
            ¬ excludedFromIndex index kbEmpty) ∧
  (∃ index, @reduceKeyBindings utilModifiers [kbCmd] = Returned index ∧
            ¬ excludedFromIndex index kbCmd).
Proof.
  intros kbEmpty kbCmd. split.
  - exists (@keyBindingsByPrimaryKey utilModifiers [kbEmpty]).
    split; [vm_compute; reflexivity|]. intros Hex.
    apply (Hex "" [mkNormalized kbEmpty "" ∅ false false false false]
             (mkNormalized kbEmpty "" ∅ false false false false)).
    + by vm_compute.
    + by left.
    + done.
  - exists (@keyBindingsByPrimaryKey utilModifiers [kbCmd]).
    split; [vm_compute; reflexivity|]. intros Hex.
    apply (Hex "KeyA" [mkNormalized kbCmd "KeyA" {["cmd"]} false false false false]
             (mkNormalized kbCmd "KeyA" {["cmd"]} false false false false)).
    + by vm_compute.
    + by left.
    + done.
Qed.

(** ** Selection of a binding *)

(** C1: when the code of a key event has candidates in the index, the
    candidates are the normalized bindings with that primary key in input
    order, and the binding selected for dispatch is the first of them whose
    four require flags equal the event's ctrl, shift, alt and meta flags
    and whose extra keys are all in the pressed-key set (no binding is
    selected when none of them is such); its action is what the listener
    hands to [onKeyDown2] or [onKeyUp2]. *)
Theorem first_matching_binding_selected `{U : Util} {Handler : Type}
    (p : Props Handler) (r : Refs) (e : KeyboardEvent) (ev : EventName)
    (cands : list NormalizedKeyBinding) :
  keyBindingsByPrimaryKey (keyBindings p) !! code e = Some cands →
  cands = filter (λ nb, primaryKey nb = code e) (omap normalize (keyBindings p)) ∧
  match selected p r e ev with
  | Some kb =>
      ∃ before after,
        cands = before ++ kb :: after ∧
        chord e (pressedAtMatch r e ev) kb ∧
        Forall (λ kb', ¬ chord e (pressedAtMatch r e ev) kb') before
  | None => Forall (λ kb', ¬ chord e (pressedAtMatch r e ev) kb') cands
  end ∧
  match ev with
  | keydown =>
      runEvent p e keydown r =
      exec (onKeyDown2 p e (actionOf (selected p r e keydown)))
        (mkRefs (altActionRef r) ({[code e]} ∪ nonModifierKeysDownRef r))
  | keyup =>
      runEvent p e keyup r =
      (mkRefs (altActionRef (altMenuStep (Handler:=Handler) e keyup r).1)
         (nonModifierKeysDownRef r ∖ {[code e]}),
       (altMenuStep e keyup r).2
         ++ (exec (onKeyUp2 p (actionOf (selected p r e keyup))) r).2)
  end.
Proof.
  intros Hcands.
  pose proof (index_key_not_modifier _ _ _ Hcands) as Hmod.
  split; [by apply index_lookup_Some in Hcands as [_ ?]|]. split.
  - pose proof (matching_first (keyBindingsByPrimaryKey (keyBindings p))
                  (pressedAtMatch r e ev) e) as Hfirst.
    unfold selected. by rewrite Hcands in Hfirst.
  - destruct ev; [by apply runEvent_keydown | by apply runEvent_keyup].
Qed.

Lemma first_matching_binding_selected_witness :
  let kbX := mkNormalized (mkKeyBinding "a" "actionX") "a" ∅ false false false false in
  let kbY := mkNormalized (mkKeyBinding "shift+a" "actionY") "a" ∅ false true false false in
  let p := exampleProps [mkKeyBinding "a" "actionX"; mkKeyBinding "shift+a" "actionY"] false in
  let e := keyEvent "a" false true false false DocumentBody in
  @keyBindingsByPrimaryKey utilModifiers (keyBindings p) !! "a" = Some [kbX; kbY] ∧
  @selected utilModifiers _ p noRefs e keydown = Some kbY ∧
  @chord e ({["a"]} ∪ ∅) kbY ∧
  (@runEvent utilModifiers _ p e keydown noRefs).2
    = [Call "actionY"; PreventDefault; StopPropagation].
Proof.
  intros kbX kbY p e.
  assert (@keyBindingsByPrimaryKey utilModifiers (keyBindings p) !! "a"
          = Some [kbX; kbY]) as Hcands by (by vm_compute).
  assert (@selected utilModifiers _ p noRefs e keydown = Some kbY) as Hsel
    by (by vm_compute).
  destruct (@first_matching_binding_selected utilModifiers string
              p noRefs e keydown [kbX; kbY] Hcands) as (_ & Hfirst & Hrun).
  rewrite Hsel in Hfirst. destruct Hfirst as (before & after & _ & Hchord & _).
  split; [done|]. split; [done|]. split; [done|].
  rewrite Hrun. by vm_compute.
Defined.

(** The two situations of section 8 of the specification for a chord with
    an extra key: with [b] held, pressing [a] dispatches; with [b] released
    first, it does not. *)
Example extra_key_must_be_pressed :
  let p := exampleProps [mkKeyBinding "b+a" "actionZ"] false in
  (@runEvent utilModifiers _ p (plainKey "a") keydown (mkRefs false {["b"]})).2
    = [Call "actionZ"; PreventDefault; StopPropagation] ∧
  (@runEvent utilModifiers _ p (plainKey "a") keydown (mkRefs false ∅)).2 = [] ∧
  (@hostRun utilModifiers _ (mount p)
     [KeyDown (plainKey "b"); KeyDown (plainKey "a")]).2
    = [Call "actionZ"; PreventDefault; StopPropagation] ∧
  (@hostRun utilModifiers _ (mount p)
     [KeyDown (plainKey "b"); KeyUp (plainKey "b"); KeyDown (plainKey "a")]).2 = [].
Proof. by vm_compute. Qed.

(** Exact equality of the modifier state: [a] with shift held runs the
    binding of [shift+a] only, [a] alone the binding of [a] only. *)
Example shift_a_is_not_a :
  let p := exampleProps [mkKeyBinding "a" "actionX"; mkKeyBinding "shift+a" "actionY"] false in
  (@runEvent utilModifiers _ p (keyEvent "a" false true false false DocumentBody)
     keydown noRefs).2 = [Call "actionY"; PreventDefault; StopPropagation] ∧
  (@runEvent utilModifiers _ p (plainKey "a") keydown noRefs).2
    = [Call "actionX"; PreventDefault; StopPropagation] ∧
  (@runEvent utilModifiers _ p (keyEvent "a" true true false false DocumentBody)
     keydown noRefs).2 = [].
Proof. by vm_compute. Qed.

(** ** The gates of [onKeyDown2] *)

Section Gates.
Context `{U : Util} {Handler : Type}.
Implicit Types (p : Props Handler) (r : Refs) (e : KeyboardEvent).

Lemma keydown_modifier_log p e r :
  code e ∈ allModifiers → runEvent p e keydown r = (r, []).
Proof. intros Hmod. by rewrite runEvent_modifier. Qed.

Lemma keydown_log p e r :
  code e ∉ allModifiers →
  (runEvent p e keydown r).2 =
  let act := actionOf (selected p r e keydown) in
  if exportConfirmOpen p && bool_decide (code e = "Escape")
  then [CloseExportConfirm; PreventDefault; StopPropagation]
  else if exportConfirmOpen p && negb (bool_decide (act = Some "export")) then []
  else if negb (bool_decide (target e = DocumentBody)) then []
  else match act ≫= getKeyboardAction p with
       | Some fn => [Call fn; PreventDefault; StopPropagation]
       | None => []
       end.
Proof.
  intros Hmod. rewrite runEvent_keydown, onKeyDown2_exec by done. simpl.
  destruct (exportConfirmOpen p && bool_decide (code e = "Escape")); [done|].
  destruct (exportConfirmOpen p && negb (bool_decide (_ = Some "export"))); [done|].
  destruct (negb (bool_decide (target e = DocumentBody))); [done|].
  by destruct (_ ≫= getKeyboardAction p).
Qed.

Lemma keydown_alt p e r :
  altActionRef (runEvent p e keydown r).1 =
  altActionRef r || (altKey e && existsb isCall (runEvent p e keydown r).2).
Proof.
  destruct (decide (code e ∈ allModifiers)) as [Hmod|Hmod].
  - rewrite keydown_modifier_log by done. simpl.
    by rewrite andb_false_r, orb_false_r.
  - rewrite runEvent_keydown, onKeyDown2_exec by done.
    repeat match goal with
           | |- context [if ?b then _ else _] => destruct b; simpl
           | |- context [match ?o with Some _ => _ | None => _ end] =>
               destruct o; simpl
           end;
      by destruct (altActionRef r), (altKey e).
Qed.

Lemma selected_withTarget p r e ev t :
  selected p r (withTarget e t) ev = selected p r e ev.
Proof. by destruct e, ev. Qed.

Lemma keyup_ignores_target p e r t :
  runEvent p (withTarget e t) keyup r = runEvent p e keyup r.
Proof.
  destruct (decide (code e ∈ allModifiers)) as [Hmod|Hmod].
  - by rewrite !runEvent_modifier.
  - by rewrite !runEvent_keyup, selected_withTarget.
Qed.

Lemma keyup_ignores_dialog p e r b :
  runEvent (withConfirmOpen p b) e keyup r = runEvent p e keyup r.
Proof.
  destruct (decide (code e ∈ allModifiers)) as [Hmod|Hmod].
  - by rewrite !runEvent_modifier.
  - by rewrite !runEvent_keyup.
Qed.

End Gates.

(** C3: while the confirmation dialog is open, a key-down of Escape closes
    the dialog and consumes the event, whatever the bindings and whatever
    the target; a key-down of any other key invokes an action callback only
    if the selected binding's action is [export], and when it is not, it
    invokes nothing, does not consume the event and leaves the Alt flag as
    it was. *)
Theorem dialog_gate `{U : Util} {Handler : Type}
    (p : Props Handler) (r : Refs) (e : KeyboardEvent) :
  "Escape" ∉ allModifiers →
  exportConfirmOpen p = true →
  (code e = "Escape" →
   runEvent p e keydown r =
   (mkRefs (altActionRef r) ({["Escape"]} ∪ nonModifierKeysDownRef r),
    [CloseExportConfirm; PreventDefault; StopPropagation])) ∧
  (code e ≠ "Escape" →
   (dispatched ((runEvent p e keydown r).2) →
    (code e ∉ allModifiers) ∧ actionOf (selected p r e keydown) = Some "export") ∧
   (actionOf (selected p r e keydown) ≠ Some "export" →
    (runEvent p e keydown r).2 = [] ∧
    altActionRef (runEvent p e keydown r).1 = altActionRef r)).
Proof.
  intros Hesc Hopen. split.
  - intros Hcode. rewrite runEvent_keydown by (by rewrite Hcode).
    rewrite onKeyDown2_exec. simpl.
    by rewrite Hopen, Hcode, bool_decide_eq_true_2.
  - intros Hcode.
    destruct (decide (code e ∈ allModifiers)) as [Hmod|Hmod].
    { rewrite keydown_modifier_log by done. simpl.
      split; [intros [fn Hfn]; by apply elem_of_nil in Hfn | done]. }
    assert ((runEvent p e keydown r).2 =
            if bool_decide (actionOf (selected p r e keydown) = Some "export")
            then (runEvent p e keydown r).2 else []) as Hlog.
    { rewrite keydown_log by done. simpl.
      rewrite Hopen, (bool_decide_eq_false_2 _ Hcode). simpl.
      by destruct (bool_decide (actionOf _ = Some "export")). }
    split.
    + intros [fn Hfn]. split; [done|]. rewrite Hlog in Hfn.
      destruct (bool_decide_reflect
                  (actionOf (selected p r e keydown) = Some "export")); [done|].
      by apply elem_of_nil in Hfn.
    + intros Hne. rewrite keydown_alt, Hlog.
      rewrite (bool_decide_eq_false_2 _ Hne). simpl.
      by rewrite andb_false_r, orb_false_r.
Qed.

Lemma dialog_gate_witness :
  let p := exampleProps [mkKeyBinding "shift+Slash" "openBindingsDialog"] true in
  let esc := keyEvent "Escape" false false false false (OtherElement "INPUT") in
  let slash := keyEvent "Slash" false true false false DocumentBody in
  @runEvent utilModifiers _ p esc keydown noRefs =
    (mkRefs false ({["Escape"]} ∪ ∅),
     [CloseExportConfirm; PreventDefault; StopPropagation]) ∧
  (@runEvent utilModifiers _ p slash keydown noRefs).2 = [].
Proof.
  intros p esc slash. split.
  - apply (@dialog_gate utilModifiers string p noRefs esc); by vm_compute.
  - apply (@dialog_gate utilModifiers string p noRefs slash); by vm_compute.
Defined.

(** The binding of [export] itself passes the dialog gate. *)
Example export_passes_dialog :
  let p := exampleProps [mkKeyBinding "KeyE" "export"; mkKeyBinding "KeyG" "gotoTime"] true in
  (@runEvent utilModifiers _ p (plainKey "KeyE") keydown noRefs).2
    = [Call "export"; PreventDefault; StopPropagation] ∧
  (@runEvent utilModifiers _ p (plainKey "KeyG") keydown noRefs).2 = [].
Proof. by vm_compute. Qed.

(** C4, as the code has it: with no dialog open, a key-down invokes an
    action callback only if the event's target is the document body, and a
    key-down on any other element invokes nothing and is not consumed.  A
    key-up is not gated: what it does is the same for every target and for
    both states of the dialog, and when the binding it selects has a
    release callback, that callback is invoked, whatever the target and
    the state of the dialog. *)
Theorem focus_gate_on_keydown_only `{U : Util} {Handler : Type}
    (p : Props Handler) (r : Refs) (e : KeyboardEvent) :
  exportConfirmOpen p = false →
  (dispatched ((runEvent p e keydown r).2) → target e = DocumentBody) ∧
  (target e ≠ DocumentBody → (runEvent p e keydown r).2 = []) ∧
  (∀ t, runEvent p (withTarget e t) keyup r = runEvent p e keyup r) ∧
  (∀ b, runEvent (withConfirmOpen p b) e keyup r = runEvent p e keyup r) ∧
  (∀ kb fn t b,
     code e ∉ allModifiers →
     selected p r e keyup = Some kb →
     keyUpActions p !! action (binding kb) = Some fn →
     (runEvent (withConfirmOpen p b) (withTarget e t) keyup r).2
     = (altMenuStep (Handler:=Handler) e keyup r).2 ++ [Call fn]).
Proof.
  intros Hclosed.
  assert (target e ≠ DocumentBody → (runEvent p e keydown r).2 = []) as Hgate.
  { intros Ht. destruct (decide (code e ∈ allModifiers)) as [Hmod|Hmod].
    - by rewrite keydown_modifier_log.
    - rewrite keydown_log by done. simpl.
      by rewrite Hclosed, (bool_decide_eq_false_2 _ Ht). }
  split; [|split; [done|]].
  - intros [fn Hfn]. destruct (decide (target e = DocumentBody)) as [|Ht]; [done|].
    rewrite Hgate in Hfn by done. by apply elem_of_nil in Hfn.
  - split; [apply keyup_ignores_target|]. split; [apply keyup_ignores_dialog|].
    intros kb fn t b Hmod Hsel Hfn.
    rewrite keyup_ignores_dialog, keyup_ignores_target.
    rewrite runEvent_keyup by done. simpl.
    rewrite onKeyUp2_exec, Hsel. simpl. by rewrite Hfn.
Qed.

Lemma focus_gate_on_keydown_only_witness :
  let p := exampleProps [mkKeyBinding "ctrl+KeyG" "gotoTime";
                         mkKeyBinding "ArrowRight" "seekForwards"] false in
  let e := keyEvent "KeyG" true false false false (OtherElement "INPUT") in
  let up := keyEvent "ArrowRight" false false false false DocumentBody in
  (@runEvent utilModifiers _ p e keydown noRefs).2 = [] ∧
  (@runEvent utilModifiers _ p (withTarget e DocumentBody) keydown noRefs).2
    = [Call "gotoTime"; PreventDefault; StopPropagation] ∧
  (@runEvent utilModifiers _ (withConfirmOpen p true)
     (withTarget up (OtherElement "INPUT")) keyup (mkRefs false {["ArrowRight"]})).2
    = [] ++ [Call "seekReset"].
Proof.
  intros p e up. split; [|split].
  - destruct (@focus_gate_on_keydown_only utilModifiers string p noRefs e eq_refl)
      as (_ & Hgate & _).
    apply Hgate. intros Ht. discriminate Ht.
  - vm_compute. reflexivity.
  - destruct (@focus_gate_on_keydown_only utilModifiers string p
                (mkRefs false {["ArrowRight"]}) up eq_refl) as (_ & _ & _ & _ & Hup).
    apply (Hup (mkNormalized (mkKeyBinding "ArrowRight" "seekForwards")
                  "ArrowRight" ∅ false false false false)
             "seekReset" (OtherElement "INPUT") true).
    + by vm_compute.
    + vm_compute. reflexivity.
    + vm_compute. reflexivity.
Defined.

(** The claim of C4 fails on key-up: the release callback of a binding runs
    although the event's target is a text input. *)
Lemma keyup_dispatches_outside_body :
  ¬ (∀ (p : Props string) (e : KeyboardEvent) (ev : EventName) (r : Refs),
       exportConfirmOpen p = false →
       dispatched ((@runEvent utilModifiers _ p e ev r).2) →
       target e = DocumentBody).
Proof.
  intros Hclaim.
  specialize (Hclaim (exampleProps [mkKeyBinding "ArrowRight" "seekForwards"] false)
                (keyEvent "ArrowRight" false false false false (OtherElement "INPUT"))
                keyup (mkRefs false {["ArrowRight"]}) eq_refl).
  assert (OtherElement "INPUT" = DocumentBody) as Habs; [|done].
  apply Hclaim. exists "seekReset".
  assert ((@runEvent utilModifiers _
             (exampleProps [mkKeyBinding "ArrowRight" "seekForwards"] false)
             (keyEvent "ArrowRight" false false false false (OtherElement "INPUT"))
             keyup (mkRefs false {["ArrowRight"]})).2 = [Call "seekReset"])
    as -> by (by vm_compute).
  by left.
Qed.

(** ** Consumption of key-down events *)

(** Closes a goal whose hypothesis [H] puts an effect in a log that does
    not have it. *)
Ltac log_mem H :=
  repeat (apply elem_of_cons in H as [H|H]; [discriminate H|]);
  by apply elem_of_nil in H.

Section Consumption.
Context `{U : Util} {Handler : Type}.
Implicit Types (p : Props Handler) (r : Refs) (e : KeyboardEvent).

Lemma consumed_close :
  consumed (Handler:=Handler) [CloseExportConfirm; PreventDefault; StopPropagation].
Proof. split; [right; left | right; right; left]. Qed.

Lemma consumed_call (fn : Handler) :
  consumed [Call fn; PreventDefault; StopPropagation].
Proof. split; [right; left | right; right; left]. Qed.

Lemma not_consumed_nil : ¬ consumed (Handler:=Handler) [].
Proof. intros [Hin _]. by apply elem_of_nil in Hin. Qed.

(** The four outcomes of a key-down. *)
Lemma keydown_outcomes p r e :
  (code e ∈ allModifiers ∧ (runEvent p e keydown r).2 = []) ∨
  ((code e ∉ allModifiers) ∧ escapeClosesDialog p e ∧
   (runEvent p e keydown r).2 = [CloseExportConfirm; PreventDefault; StopPropagation]) ∨
  ((code e ∉ allModifiers) ∧ ¬ escapeClosesDialog p e ∧
   ∃ fn, passes p r e fn ∧
         (runEvent p e keydown r).2 = [Call fn; PreventDefault; StopPropagation]) ∨
  ((code e ∉ allModifiers) ∧ ¬ escapeClosesDialog p e ∧
   (∀ fn, ¬ passes p r e fn) ∧ (runEvent p e keydown r).2 = []).
Proof.
  destruct (decide (code e ∈ allModifiers)) as [Hmod|Hmod].
  { left. by rewrite keydown_modifier_log. }
  right. rewrite keydown_log by done. unfold escapeClosesDialog, passes. simpl.
  destruct (exportConfirmOpen p) eqn:Hopen;
    destruct (bool_decide_reflect (code e = "Escape")) as [Hesc|Hesc]; simpl;
    [by left | right ..].
  all: assert (¬ (exportConfirmOpen p = true ∧ code e = "Escape")) as Hnesc
    by (intros [? ?]; congruence).
  all: rewrite Hopen in *.
  all: destruct (selected p r e keydown) as [kb|] eqn:Hsel; simpl.
  all: try (right; repeat case_bool_decide; repeat split; try done;
            by intros fn (kb' & ? & _)).
  all: destruct (bool_decide_reflect (target e = DocumentBody)) as [Ht|Ht];
    destruct (getKeyboardAction p (action (binding kb))) as [fn|] eqn:Hfn;
    repeat case_bool_decide; simpl.
  all: first
    [ left; split; [done|]; split; [done|]; exists fn; split; [|done];
      exists kb; repeat split; solve [done | congruence]
    | right; split; [done|]; split; [done|]; split; [|done];
      intros fn' (kb' & Hkb' & Hexp & Ht' & Hfn'); simplify_eq;
      solve [done | congruence | match goal with
                                 | Hx : Some _ ≠ Some _ |- _ =>
                                     apply Hx; f_equal; by apply Hexp
                                 end] ].
Qed.

End Consumption.

(** C8, as the code has it: a key-down event is consumed iff its key is not
    a modifier and either the confirmation dialog is open and the key is
    Escape, or a candidate binding matched, both gates passed and the
    registry resolved its action to a callback; in the second case the
    callback is invoked, and an action callback is invoked in no other
    case.  When no candidate matches, and the event is not the Escape that
    closes the dialog, nothing is invoked and the event is not consumed. *)
Theorem keydown_consumed_iff `{U : Util} {Handler : Type}
    (p : Props Handler) (r : Refs) (e : KeyboardEvent) :
  (consumed ((runEvent p e keydown r).2) ↔
   (code e ∉ allModifiers) ∧ (escapeClosesDialog p e ∨ ∃ fn, passes p r e fn)) ∧
  (∀ fn, Call fn ∈ (runEvent p e keydown r).2 ↔
         (code e ∉ allModifiers) ∧ ¬ escapeClosesDialog p e ∧ passes p r e fn) ∧
  (∀ fn, Call fn ∈ (runEvent p e keydown r).2 →
         (runEvent p e keydown r).2 = [Call fn; PreventDefault; StopPropagation]) ∧
  (selected p r e keydown = None → ¬ escapeClosesDialog p e →
   (runEvent p e keydown r).2 = []).
Proof.
  assert (∀ fn fn', passes p r e fn → passes p r e fn' → fn = fn') as Hfun.
  { intros fn fn' (kb & Hkb & _ & _ & Hfn) (kb' & Hkb' & _ & _ & Hfn').
    congruence. }
  destruct (keydown_outcomes p r e)
    as [[Hmod ->] | [(Hmod & Hesc & ->) | [(Hmod & Hesc & fn & Hfn & ->)
                                          | (Hmod & Hesc & Hno & ->)]]].
  - split; [|split; [|split]].
    + split; [intros Hc; by apply not_consumed_nil in Hc | intros [? _]; done].
    + intros fn. split; [intros Hin; by apply elem_of_nil in Hin|].
      intros (? & _). done.
    + intros fn Hin. by apply elem_of_nil in Hin.
    + done.
  - split; [|split; [|split]].
    + split; intros _; [split; [done | by left] | apply consumed_close].
    + intros fn. split; [intros Hin; log_mem Hin | intros (_ & ? & _); done].
    + intros fn Hin. log_mem Hin.
    + done.
  - split; [|split; [|split]].
    + split; intros _; [split; [done | right; by exists fn] | apply consumed_call].
    + intros fn0. split.
      * intros Hin. apply elem_of_cons in Hin as [Hin|Hin]; [|log_mem Hin].
        by injection Hin as ->.
      * intros (_ & _ & Hfn0). rewrite (Hfun _ _ Hfn0 Hfn). by left.
    + intros fn0 Hin. apply elem_of_cons in Hin as [Hin|Hin]; [|log_mem Hin].
      by injection Hin as ->.
    + intros Hnone _. destruct Hfn as (kb & Hkb & _). congruence.
  - split; [|split; [|split]].
    + split; [intros Hc; by apply not_consumed_nil in Hc|].
      intros [_ [?|[fn Hfn]]]; [done | by apply Hno in Hfn].
    + intros fn. split; [intros Hin; by apply elem_of_nil in Hin|].
      intros (_ & _ & Hfn). by apply Hno in Hfn.
    + intros fn Hin. by apply elem_of_nil in Hin.
    + done.
Qed.

Lemma keydown_consumed_iff_witness :
  let p := exampleProps [mkKeyBinding "ctrl+KeyG" "gotoTime"] false in
  let e := keyEvent "KeyG" true false false false DocumentBody in
  consumed ((@runEvent utilModifiers _ p e keydown noRefs).2) ∧
  (@runEvent utilModifiers _ p e keydown noRefs).2
    = [Call "gotoTime"; PreventDefault; StopPropagation] ∧
  (@runEvent utilModifiers _ p (plainKey "KeyG") keydown noRefs).2 = [].
Proof.
  intros p e.
  assert (@passes utilModifiers _ p noRefs e "gotoTime") as Hpass.
  { exists (mkNormalized (mkKeyBinding "ctrl+KeyG" "gotoTime") "KeyG" ∅
              true false false false).
    split; [by vm_compute|]. by split. }
  destruct (@keydown_consumed_iff utilModifiers string p noRefs e)
    as (Hcons & Hcall & Hlog & _).
  assert (Call "gotoTime" ∈ (@runEvent utilModifiers _ p e keydown noRefs).2) as Hin.
  { apply Hcall. split; [by vm_compute|]. split; [|done]. by intros [? _]. }
  split; [|split].
  - apply Hcons. split; [by vm_compute|]. right. by exists "gotoTime".
  - by apply Hlog.
  - apply (@keydown_consumed_iff utilModifiers string p noRefs (plainKey "KeyG")).
    + by vm_compute.
    + by intros [? _].
Defined.

(** The claim of C8 fails: with the dialog open, a key-down of Escape is
    consumed although no binding matched and no action was resolved. *)
Lemma escape_consumed_without_binding :
  ¬ (∀ (p : Props string) (e : KeyboardEvent) (r : Refs),
       consumed ((@runEvent utilModifiers _ p e keydown r).2) ↔
       ∃ fn, @passes utilModifiers _ p r e fn).
Proof.
  intros Hclaim.
  destruct (Hclaim (exampleProps [] true) (plainKey "Escape") noRefs) as [Hto _].
  destruct Hto as (fn & kb & Hsel & _).
  - assert ((@runEvent utilModifiers _ (exampleProps [] true) (plainKey "Escape")
               keydown noRefs).2
            = [CloseExportConfirm; PreventDefault; StopPropagation]) as ->
        by (vm_compute; reflexivity).
    apply consumed_close.
  - revert Hsel. vm_compute. discriminate.
Qed.

(** ** Key-up and the Alt flag *)

Section Release.
Context `{U : Util} {Handler : Type}.
Implicit Types (p : Props Handler) (r : Refs) (e : KeyboardEvent).

Lemma dispatched_existsb (log : list (Effect Handler)) :
  existsb isCall log = true ↔ dispatched log.
Proof.
  rewrite existsb_exists. split.
  - intros ([fn| | |] & Hin & Hc); try done.
    exists fn. by apply list_elem_of_In.
  - intros [fn Hin]. exists (Call fn). split; [by apply list_elem_of_In | done].
Qed.

Lemma altMenuStep_no_call e ev r fn :
  Call fn ∉ (altMenuStep (Handler:=Handler) e ev r).2.
Proof.
  unfold altMenuStep. intros Hin.
  destruct (_ && _); simpl in Hin; log_mem Hin.
Qed.

Lemma altMenuStep_pressed e ev r :
  nonModifierKeysDownRef (altMenuStep (Handler:=Handler) e ev r).1
  = nonModifierKeysDownRef r.
Proof. unfold altMenuStep. by destruct (_ && _). Qed.

Lemma altMenuStep_flag_off e ev r :
  altActionRef r = false → altMenuStep (Handler:=Handler) e ev r = (r, []).
Proof.
  unfold altMenuStep. intros ->. by rewrite andb_false_r.
Qed.

Lemma altMenuStep_other_key e ev r :
  ¬ (code e = "AltLeft" ∨ code e = "AltRight") →
  altMenuStep (Handler:=Handler) e ev r = (r, []).
Proof.
  unfold altMenuStep. intros Hne.
  rewrite (bool_decide_eq_false_2 (code e = "AltLeft")) by (intros ?; apply Hne; by left).
  rewrite (bool_decide_eq_false_2 (code e = "AltRight")) by (intros ?; apply Hne; by right).
  by rewrite andb_false_r.
Qed.

(** A release callback runs only for the binding selected on key-up. *)
Lemma keyup_call p e r fn :
  Call fn ∈ (runEvent p e keyup r).2 →
  (code e ∉ allModifiers) ∧
  ∃ kb, selected p r e keyup = Some kb ∧
        keyUpActions p !! action (binding kb) = Some fn.
Proof.
  intros Hin. destruct (decide (code e ∈ allModifiers)) as [Hmod|Hmod].
  { rewrite runEvent_modifier in Hin by done.
    by apply altMenuStep_no_call in Hin. }
  split; [done|]. rewrite runEvent_keyup in Hin by done. simpl in Hin.
  apply elem_of_app in Hin as [Hin|Hin]; [by apply altMenuStep_no_call in Hin|].
  rewrite onKeyUp2_exec in Hin. simpl in Hin.
  destruct (selected p r e keyup) as [kb|]; simpl in Hin; [|log_mem Hin].
  exists kb. split; [done|].
  destruct (keyUpActions p !! action (binding kb)) as [fn'|]; [|log_mem Hin].
  apply elem_of_cons in Hin as [Hin|Hin]; [|log_mem Hin].
  by injection Hin as ->.
Qed.

Lemma keyup_flag p e r :
  altActionRef (runEvent p e keyup r).1
  = altActionRef (altMenuStep (Handler:=Handler) e keyup r).1.
Proof.
  destruct (decide (code e ∈ allModifiers)) as [Hmod|Hmod].
  - by rewrite runEvent_modifier.
  - by rewrite runEvent_keyup.
Qed.

End Release.

(** C5: on key-up of [AltLeft] or [AltRight], if the Alt flag is set, the
    event's default is prevented and the flag is reset, and if it is not
    set, nothing is logged and the refs are unchanged, so the Alt key-up
    that follows a suppressed one is not consumed.  The flag goes from
    unset to set exactly on a key-down that has the Alt modifier active
    and invokes an action callback. *)
Theorem alt_menu_suppression `{U : Util} {Handler : Type}
    (p : Props Handler) (r : Refs) (e : KeyboardEvent) :
  "AltLeft" ∈ allModifiers → "AltRight" ∈ allModifiers →
  (code e = "AltLeft" ∨ code e = "AltRight" →
   runEvent p e keyup r =
     (if altActionRef r
      then (mkRefs false (nonModifierKeysDownRef r), [PreventDefault])
      else (r, [])) ∧
   ∀ e', code e' = "AltLeft" ∨ code e' = "AltRight" →
         runEvent p e' keyup (runEvent p e keyup r).1
         = ((runEvent p e keyup r).1, [])) ∧
  (altActionRef (runEvent p e keydown r).1 = true ↔
   altActionRef r = true ∨
   (altKey e = true ∧ dispatched ((runEvent p e keydown r).2))) ∧
  (∀ (h : Hook Handler) (he : HostEvent Handler),
     altActionRef (refs h) = false →
     altActionRef (refs (hostStep h he).1) = true ↔
     ∃ e', he = KeyDown e' ∧ altKey e' = true ∧ dispatched ((hostStep h he).2)).
Proof.
  intros HL HR.
  assert (∀ (p' : Props Handler) e' r', code e' = "AltLeft" ∨ code e' = "AltRight" →
            runEvent p' e' keyup r' =
            if altActionRef r'
            then (mkRefs false (nonModifierKeysDownRef r'), [PreventDefault])
            else (r', [])) as Halt.
  { intros p' e' r' Hcode.
    rewrite runEvent_modifier by (destruct Hcode as [-> | ->]; done).
    unfold altMenuStep.
    destruct (altActionRef r'); simpl; [|done].
    destruct Hcode as [-> | ->]; by simpl. }
  assert (∀ (p' : Props Handler) e' r',
            altActionRef (runEvent p' e' keydown r').1 = true ↔
            altActionRef r' = true ∨
            (altKey e' = true ∧ dispatched ((runEvent p' e' keydown r').2)))
    as Hdown.
  { intros p' e' r'. rewrite keydown_alt, orb_true_iff, andb_true_iff.
    by rewrite dispatched_existsb. }
  split; [|split].
  - intros Hcode. split; [by apply Halt|].
    intros e' Hcode'. rewrite (Halt p e' _ Hcode'), (Halt p e r Hcode).
    destruct (altActionRef r) eqn:Hr; simpl; [done | by rewrite Hr].
  - apply Hdown.
  - intros [p' r'] he Hoff. simpl in Hoff. destruct he as [e'|e'| |p'']; simpl.
    + pose proof (Hdown p' e' r') as Hd. unfold runEvent in Hd.
      destruct (exec (handleKeyEvent p' e' keydown) r') as [r1 log1]. simpl in *.
      rewrite Hd, Hoff. split.
      * intros [?|[? ?]]; [done|]. by exists e'.
      * intros (e'' & [= <-] & ? & ?). by right.
    + pose proof (keyup_flag p' e' r') as Hu. unfold runEvent in Hu.
      destruct (exec (handleKeyEvent p' e' keyup) r') as [r1 log1]. simpl in *.
      rewrite Hu, altMenuStep_flag_off by done. simpl. rewrite Hoff.
      split; [done | by intros (? & ? & _)].
    + rewrite Hoff. split; [done | by intros (? & ? & _)].
    + rewrite Hoff. split; [done | by intros (? & ? & _)].
Qed.

Lemma alt_menu_suppression_witness :
  let p := exampleProps [mkKeyBinding "alt+KeyK" "toggleKeyframes"] false in
  let altUp := keyEvent "AltLeft" false false false false DocumentBody in
  @runEvent utilModifiers _ p altUp keyup (mkRefs true ∅)
    = (mkRefs false ∅, [PreventDefault]) ∧
  @runEvent utilModifiers _ p altUp keyup (mkRefs false ∅) = (mkRefs false ∅, []) ∧
  (@hostRun utilModifiers _ (mount p)
     [KeyDown (keyEvent "AltLeft" false false true false DocumentBody);
      KeyDown (keyEvent "KeyK" false false true false DocumentBody);
      KeyUp (keyEvent "KeyK" false false true false DocumentBody);
      KeyUp altUp; KeyUp altUp]).2
    = [Call "toggleKeyframes"; PreventDefault; StopPropagation; PreventDefault].
Proof.
  intros p altUp.
  destruct (@alt_menu_suppression utilModifiers string p (mkRefs true ∅) altUp)
    as (Hup & _); [by vm_compute | by vm_compute |].
  destruct (@alt_menu_suppression utilModifiers string p (mkRefs false ∅) altUp)
    as (Hup' & _); [by vm_compute | by vm_compute |].
  split; [|split].
  - destruct (Hup (or_introl eq_refl)) as [Hset _]. exact Hset.
  - destruct (Hup' (or_introl eq_refl)) as [Hunset _]. exact Hunset.
  - vm_compute. reflexivity.
Defined.

(** ** Order of the steps within one event *)

Section Order.
Context `{U : Util} {Handler : Type}.
Implicit Types (p : Props Handler) (r : Refs) (e : KeyboardEvent).

(** The log of [runEvent] is the log of [runEventAt] without the refs. *)
Lemma runEventAt_log p e ev r :
  fst <$> runEventAt p e ev r = (runEvent p e ev r).2.
Proof.
  unfold runEventAt, runEvent, execAt, exec.
  by destruct (handleKeyEvent p e ev r) as [[[] r'] log].
Qed.

(** [onKeyDown2] acts on the outside before it writes the Alt flag. *)
Lemma onKeyDown2_execAt p e act r ef s :
  (ef, s) ∈ execAt (onKeyDown2 p e act) r → s = r.
Proof.
  unfold onKeyDown2.
  destruct (exportConfirmOpen p && bool_decide (code e = "Escape")).
  { unfold execAt; simpl. intros Hin.
    repeat (apply elem_of_cons in Hin as [Hin|Hin]; [by injection Hin|]).
    by apply elem_of_nil in Hin. }
  destruct (exportConfirmOpen p && negb (bool_decide (act = Some "export"))).
  { unfold execAt; simpl. intros Hin. by apply elem_of_nil in Hin. }
  destruct (negb (bool_decide (target e = DocumentBody))).
  { unfold execAt; simpl. intros Hin. by apply elem_of_nil in Hin. }
  destruct (act ≫= getKeyboardAction p) as [fn|].
  - unfold execAt; simpl. destruct (altKey e); simpl; intros Hin.
    all: repeat (apply elem_of_cons in Hin as [Hin|Hin]; [by injection Hin|]).
    all: by apply elem_of_nil in Hin.
  - unfold execAt; simpl. intros Hin. by apply elem_of_nil in Hin.
Qed.

Lemma onKeyUp2_execAt p act r ef s :
  (ef, s) ∈ execAt (onKeyUp2 p act) r → s = r.
Proof.
  unfold onKeyUp2. destruct (act ≫= _) as [fn|]; unfold execAt; simpl; intros Hin.
  - apply elem_of_cons in Hin as [Hin|Hin]; [by injection Hin|].
    by apply elem_of_nil in Hin.
  - by apply elem_of_nil in Hin.
Qed.

(** On key-down every effect happens with the code already in the set. *)
Lemma runEventAt_keydown p e r ef s :
  code e ∉ allModifiers →
  (ef, s) ∈ runEventAt p e keydown r →
  nonModifierKeysDownRef s = {[code e]} ∪ nonModifierKeysDownRef r.
Proof.
  intros Hmod. unfold runEventAt, handleKeyEvent, isModifierKey.
  rewrite (bool_decide_eq_false_2 _ Hmod). destruct r as [alt pressed].
  unfold execAt, mbind, M_bind, readRefs, when, updatePressed; simpl.
  destruct (onKeyDown2 _ _ _ _) as [[[] r1] log1] eqn:Hdown. simpl.
  rewrite app_nil_r. intros Hin.
  assert (s = mkRefs alt ({[code e]} ∪ pressed)) as ->; [|done].
  eapply onKeyDown2_execAt. unfold execAt. by rewrite Hdown.
Qed.

(** On key-up every effect happens with the set as it was before the
    event: the code is deleted after [onKeyUp2] has run. *)
Lemma runEventAt_keyup p e r ef s :
  code e ∉ allModifiers →
  (ef, s) ∈ runEventAt p e keyup r →
  nonModifierKeysDownRef s = nonModifierKeysDownRef r.
Proof.
  intros Hmod. unfold runEventAt, handleKeyEvent, isModifierKey.
  rewrite (bool_decide_eq_false_2 _ Hmod). destruct r as [alt pressed].
  unfold execAt, mbind, M_bind, readRefs, when, emit, setAltAction, updatePressed,
    mret, M_ret; simpl.
  destruct (alt && (bool_decide (code e = "AltLeft")
                    || bool_decide (code e = "AltRight"))); simpl.
  - destruct (onKeyUp2 _ _ _) as [[[] r1] log1] eqn:Hup. simpl.
    rewrite app_nil_r. intros Hin.
    apply elem_of_cons in Hin as [Hin|Hin]; [by injection Hin as -> ->|].
    assert (s = mkRefs false pressed) as ->; [|done].
    eapply onKeyUp2_execAt. unfold execAt. by rewrite Hup.
  - destruct (onKeyUp2 _ _ _) as [[[] r1] log1] eqn:Hup. simpl.
    rewrite app_nil_r. intros Hin.
    assert (s = mkRefs alt pressed) as ->; [|done].
    eapply onKeyUp2_execAt. unfold execAt. by rewrite Hup.
Qed.

End Order.

(** C6: within a key-down of a key that is not a modifier, the code is put
    in the pressed-key set before the lookup, so the lookup sees the key
    itself together with the keys that were already down, and so does
    every effect of the event; within a key-up, the lookup and [onKeyUp2]
    run on the set as it was, the key included if it was down: at the
    moment a release callback is invoked the set is the one from before
    the event, and the code is removed only afterwards. *)
Theorem pressed_set_order `{U : Util} {Handler : Type}
    (p : Props Handler) (r : Refs) (e : KeyboardEvent) :
  code e ∉ allModifiers →
  let index := keyBindingsByPrimaryKey (keyBindings p) in
  let pressed := nonModifierKeysDownRef r in
  runEvent p e keydown r =
    exec (onKeyDown2 p e
            (actionOf (matchingKeyBinding index ({[code e]} ∪ pressed) e)))
      (mkRefs (altActionRef r) ({[code e]} ∪ pressed)) ∧
  nonModifierKeysDownRef (runEvent p e keydown r).1 = {[code e]} ∪ pressed ∧
  (runEvent p e keyup r).2 =
    (altMenuStep (Handler:=Handler) e keyup r).2
    ++ (exec (onKeyUp2 p (actionOf (matchingKeyBinding index pressed e))) r).2 ∧
  nonModifierKeysDownRef (runEvent p e keyup r).1 = pressed ∖ {[code e]} ∧
  (∀ kb cands,
     index !! code e = Some (kb :: cands) →
     requireCtrl kb = ctrlKey e → requireShift kb = shiftKey e →
     requireAlt kb = altKey e → requireMeta kb = metaKey e →
     (extraNonModifierKeys kb ⊆ {[code e]} ∪ pressed →
      runEvent p e keydown r =
        exec (onKeyDown2 p e (Some (action (binding kb))))
          (mkRefs (altActionRef r) ({[code e]} ∪ pressed))) ∧
     (extraNonModifierKeys kb ⊆ pressed →
      (runEvent p e keyup r).2 =
        (altMenuStep (Handler:=Handler) e keyup r).2
        ++ (exec (onKeyUp2 p (Some (action (binding kb)))) r).2)) ∧
  (∀ ev, fst <$> runEventAt p e ev r = (runEvent p e ev r).2) ∧
  (∀ ef s, (ef, s) ∈ runEventAt p e keydown r →
           nonModifierKeysDownRef s = {[code e]} ∪ pressed) ∧
  (∀ ef s, (ef, s) ∈ runEventAt p e keyup r →
           nonModifierKeysDownRef s = pressed) ∧
  (∀ fn s, (Call fn, s) ∈ runEventAt p e keyup r →
           (code e ∈ nonModifierKeysDownRef s ↔ code e ∈ pressed) ∧
           code e ∉ nonModifierKeysDownRef (runEvent p e keyup r).1).
Proof.
  intros Hmod index pressed.
  pose proof (runEvent_keydown p e r Hmod) as Hdown.
  pose proof (runEvent_keyup p e r Hmod) as Hup.
  unfold selected, pressedAtMatch in Hdown, Hup.
  fold index in Hdown, Hup. fold pressed in Hdown, Hup.
  split; [done|]. split.
  { rewrite Hdown, onKeyDown2_exec. simpl.
    repeat match goal with
           | |- context [if ?b then _ else _] => destruct b; simpl
           | |- context [match ?o with Some _ => _ | None => _ end] =>
               destruct o; simpl
           end; done. }
  split; [by rewrite Hup|]. split; [by rewrite Hup|].
  split.
  { intros kb cands Hcands Hc Hs Ha Hm.
    assert (∀ S, extraNonModifierKeys kb ⊆ S →
                 matchingKeyBinding index S e = Some kb) as Hfirst.
    { intros S Hsub. unfold matchingKeyBinding. rewrite Hcands. simpl.
      by rewrite (proj2 (chordHolds_chord e S kb)). }
    split; intros Hsub.
    - by rewrite Hdown, Hfirst.
    - by rewrite Hup, Hfirst. }
  split; [intros ev; apply runEventAt_log|].
  split; [intros ef s; by apply runEventAt_keydown|].
  split; [intros ef s; by apply runEventAt_keyup|].
  intros fn s Hin. apply runEventAt_keyup in Hin; [|done].
  split; [by rewrite Hin|]. rewrite Hup. simpl.
  rewrite elem_of_difference, elem_of_singleton. by intros [_ ?].
Qed.

Lemma pressed_set_order_witness :
  let p := mkProps [mkKeyBinding "KeyA+KeyA" "seekForwards"]
             {[ "seekForwards" := "seekReset" ]} (λ a, Some a) false in
  (@runEvent utilModifiers _ p (plainKey "KeyA") keydown (mkRefs false ∅))
    = (mkRefs false ({["KeyA"]} ∪ ∅),
       [Call "seekForwards"; PreventDefault; StopPropagation]) ∧
  (@runEvent utilModifiers _ p (plainKey "KeyA") keyup (mkRefs false {["KeyA"]})).2
    = [Call "seekReset"] ∧
  nonModifierKeysDownRef
    (@runEvent utilModifiers _ p (plainKey "KeyA") keyup (mkRefs false {["KeyA"]})).1
    = {["KeyA"]} ∖ {["KeyA"]} ∧
  @runEventAt utilModifiers _ p (plainKey "KeyA") keyup (mkRefs false {["KeyA"]})
    = [(Call "seekReset", mkRefs false {["KeyA"]})] ∧
  "KeyA" ∈ nonModifierKeysDownRef (mkRefs false {["KeyA"]}).
Proof.
  intros p.
  destruct (@pressed_set_order utilModifiers string p (mkRefs false ∅)
              (plainKey "KeyA")) as (Hdown & _); [by vm_compute|].
  destruct (@pressed_set_order utilModifiers string p (mkRefs false {["KeyA"]})
              (plainKey "KeyA")) as (_ & _ & Hup & Hset & _ & _ & _ & _ & Hcall);
    [by vm_compute|].
  assert (@runEventAt utilModifiers _ p (plainKey "KeyA") keyup
            (mkRefs false {["KeyA"]})
          = [(Call "seekReset", mkRefs false {["KeyA"]})]) as Hat
    by (vm_compute; reflexivity).
  split; [|split; [|split; [|split]]].
  - rewrite Hdown. vm_compute. reflexivity.
  - rewrite Hup. vm_compute. reflexivity.
  - exact Hset.
  - exact Hat.
  - assert ((Call "seekReset", mkRefs false {["KeyA"]})
            ∈ @runEventAt utilModifiers _ p (plainKey "KeyA") keyup
                (mkRefs false {["KeyA"]})) as Hin
      by (rewrite Hat; by left).
    destruct (Hcall _ _ Hin) as [Hiff _]. apply Hiff.
    simpl. by apply elem_of_singleton.
Defined.

(** ** Release callbacks *)

(** C10: a release callback is invoked on a key-up only for the binding
    selected at that moment: a binding of the released key whose four
    require flags equal the event's flags and whose extra keys are all
    still pressed.  A binding with a flag that differs from the event's,
    such as a required modifier that was released first, is not selected,
    and when no candidate's chord holds nothing is invoked. *)
Theorem release_requires_chord `{U : Util} {Handler : Type}
    (p : Props Handler) (r : Refs) (e : KeyboardEvent) (fn : Handler) :
  Call fn ∈ (runEvent p e keyup r).2 →
  (∃ kb raw,
     selected p r e keyup = Some kb ∧
     raw ∈ keyBindings p ∧ normalize raw = Some kb ∧
     primaryKey kb = code e ∧
     keyUpActions p !! action (binding kb) = Some fn ∧
     requireCtrl kb = ctrlKey e ∧ requireShift kb = shiftKey e ∧
     requireAlt kb = altKey e ∧ requireMeta kb = metaKey e ∧
     extraNonModifierKeys kb ⊆ nonModifierKeysDownRef r) ∧
  (∀ kb,
     requireCtrl kb ≠ ctrlKey e ∨ requireShift kb ≠ shiftKey e ∨
     requireAlt kb ≠ altKey e ∨ requireMeta kb ≠ metaKey e ∨
     ¬ extraNonModifierKeys kb ⊆ nonModifierKeysDownRef r →
     selected p r e keyup ≠ Some kb).
Proof.
  intros Hin. split.
  - apply keyup_call in Hin as (Hmod & kb & Hsel & Hfn).
    pose proof Hsel as Hsel'. unfold selected in Hsel'.
    apply matching_Some_index in Hsel' as (Hpk & Hchord & raw & Hraw & Hn).
    destruct Hchord as (Hc & Hs & Ha & Hm & Hsub).
    exists kb, raw. by repeat split.
  - intros kb Hdiff Hsel. unfold selected in Hsel.
    apply matching_Some in Hsel as [_ (Hc & Hs & Ha & Hm & Hsub)].
    simpl in Hsub. tauto.
Qed.

Lemma release_requires_chord_witness :
  let p := exampleProps [mkKeyBinding "shift+ArrowRight" "seekForwards"] false in
  let held := keyEvent "ArrowRight" false true false false DocumentBody in
  let r := mkRefs false {["ArrowRight"]} in
  (@runEvent utilModifiers _ p held keyup r).2 = [Call "seekReset"] ∧
  (∃ kb, @selected utilModifiers _ p r held keyup = Some kb ∧
         requireShift kb = true ∧ primaryKey kb = "ArrowRight") ∧
  (@runEvent utilModifiers _ p (plainKey "ArrowRight") keyup r).2 = [].
Proof.
  intros p held r.
  assert ((@runEvent utilModifiers _ p held keyup r).2 = [Call "seekReset"]) as Hlog
    by (vm_compute; reflexivity).
  split; [done|]. split; [|vm_compute; reflexivity].
  destruct (@release_requires_chord utilModifiers string p r held "seekReset")
    as [(kb & raw & Hsel & _ & _ & Hpk & _ & _ & Hs & _) _].
  { rewrite Hlog. by left. }
  exists kb. by repeat split.
Defined.

(** ** The pressed-key set over a run of the host *)

Section Tracker.
Context `{U : Util} {Handler : Type}.
Implicit Types (p : Props Handler) (r : Refs) (e : KeyboardEvent)
  (h : Hook Handler) (he : HostEvent Handler) (hes : list (HostEvent Handler)).

Lemma keydown_pressed p e r :
  nonModifierKeysDownRef (runEvent p e keydown r).1
  = if decide (code e ∈ allModifiers) then nonModifierKeysDownRef r
    else {[code e]} ∪ nonModifierKeysDownRef r.
Proof.
  destruct (decide (code e ∈ allModifiers)) as [Hmod|Hmod].
  - by rewrite keydown_modifier_log.
  - rewrite runEvent_keydown, onKeyDown2_exec by done. simpl.
    repeat match goal with
           | |- context [if ?b then _ else _] => destruct b; simpl
           | |- context [match ?o with Some _ => _ | None => _ end] =>
               destruct o; simpl
           end; done.
Qed.

Lemma keyup_pressed p e r :
  nonModifierKeysDownRef (runEvent p e keyup r).1
  = if decide (code e ∈ allModifiers) then nonModifierKeysDownRef r
    else nonModifierKeysDownRef r ∖ {[code e]}.
Proof.
  destruct (decide (code e ∈ allModifiers)) as [Hmod|Hmod].
  - by rewrite runEvent_modifier, altMenuStep_pressed.
  - by rewrite runEvent_keyup.
Qed.

Lemma hostStep_pressed h he :
  pressedOf (hostStep h he).1 =
  match he with
  | KeyDown e =>
      if decide (code e ∈ allModifiers) then pressedOf h
      else {[code e]} ∪ pressedOf h
  | KeyUp e =>
      if decide (code e ∈ allModifiers) then pressedOf h
      else pressedOf h ∖ {[code e]}
  | WindowBlur => ∅
  | Render _ => pressedOf h
  end.
Proof.
  unfold pressedOf. destruct h as [p r], he as [e|e| |p']; simpl; try done.
  - pose proof (keydown_pressed p e r) as Hdown. unfold runEvent in Hdown.
    by destruct (exec (handleKeyEvent p e keydown) r).
  - pose proof (keyup_pressed p e r) as Hup. unfold runEvent in Hup.
    by destruct (exec (handleKeyEvent p e keyup) r).
Qed.

Lemma hostRun_snoc h hes he :
  (hostRun h (hes ++ [he])).1 = (hostStep (hostRun h hes).1 he).1.
Proof.
  revert h. induction hes as [|he' hes IH]; intros h; simpl.
  - by destruct (hostStep h he).
  - destruct (hostStep h he') as [h1 log1]. specialize (IH h1).
    destruct (hostRun h1 (hes ++ [he])) as [h2 log2].
    destruct (hostRun h1 hes) as [h3 log3]. done.
Qed.

Lemma lastDown_nil c : ¬ lastDown (Handler:=Handler) c [].
Proof. intros (before & e & after & Heq & _). by destruct before. Qed.

Lemma lastDown_snoc c hes he :
  lastDown c (hes ++ [he]) ↔
  (∃ e, he = KeyDown e ∧ code e = c) ∨
  (lastDown c hes ∧ he ≠ WindowBlur ∧ ¬ keyEventOf c he).
Proof.
  split.
  - intros (before & e & after & Heq & Hc & Hafter).
    destruct after as [|he' after _] using rev_ind.
    + left. exists e. apply app_inj_tail in Heq as [_ ->]. done.
    + right. rewrite app_comm_cons, app_assoc in Heq.
      apply app_inj_tail in Heq as [-> ->].
      apply Forall_app in Hafter as [Hafter Hhe].
      apply Forall_singleton in Hhe as [? ?].
      split; [|done]. by exists before, e, after.
  - intros [(e & -> & Hc) | ((before & e & after & -> & Hc & Hafter) & Hb & Hk)].
    + exists hes, e, []. by repeat split.
    + exists before, e, (after ++ [he]). split; [by rewrite <- app_assoc|].
      split; [done|]. apply Forall_app. split; [done|].
      by apply Forall_singleton.
Qed.

Lemma pressed_iff_lastDown p hes c :
  c ∉ allModifiers →
  c ∈ pressedOf (hostRun (mount p) hes).1 ↔ lastDown c hes.
Proof.
  intros Hc. induction hes as [|he hes IH] using rev_ind.
  - simpl. split; [intros Hin; by apply elem_of_empty in Hin|].
    intros Hl. by apply lastDown_nil in Hl.
  - rewrite hostRun_snoc, hostStep_pressed, lastDown_snoc.
    destruct he as [e|e| |p']; simpl.
    + destruct (decide (code e ∈ allModifiers)) as [Hmod|Hmod].
      * rewrite IH. split; [|intros [(e' & [= <-] & <-)|(? & _)]; done].
        intros Hl. right. split; [done|]. split; [done|]. by intros <-.
      * rewrite elem_of_union, elem_of_singleton, IH. split.
        -- intros [->|Hl]; [left; by exists e|].
           destruct (decide (code e = c)) as [Heq|Hne]; [left; by exists e|].
           right. done.
        -- intros [(e' & [= <-] & <-)|(? & _)]; [by left | by right].
    + destruct (decide (code e ∈ allModifiers)) as [Hmod|Hmod].
      * rewrite IH. split; [|intros [(e' & ? & _)|(? & _)]; done].
        intros Hl. right. split; [done|]. split; [done|]. by intros <-.
      * rewrite elem_of_difference, elem_of_singleton, IH. split.
        -- intros [Hl Hne]. right. split; [done|]. split; [done|].
           by intros <-.
        -- intros [(e' & ? & _)|(Hl & _ & Hk)]; [done|]. split; [done|].
           by intros ->.
    + split; [intros Hin; by apply elem_of_empty in Hin|].
      intros [(e' & ? & _)|(_ & ? & _)]; done.
    + rewrite IH. split; [|intros [(e' & ? & _)|(? & _)]; done].
      intros Hl. right. split; [done|]. split; [done|]. by intros [].
Qed.

Lemma pressed_not_modifier p hes c :
  c ∈ pressedOf (hostRun (mount p) hes).1 → c ∉ allModifiers.
Proof.
  induction hes as [|he hes IH] using rev_ind.
  - simpl. intros Hin. by apply elem_of_empty in Hin.
  - rewrite hostRun_snoc, hostStep_pressed.
    destruct he as [e|e| |p']; simpl; try done.
    + destruct (decide (code e ∈ allModifiers)) as [Hmod|Hmod]; [done|].
      rewrite elem_of_union, elem_of_singleton. by intros [->|?]; [|apply IH].
    + destruct (decide (code e ∈ allModifiers)) as [Hmod|Hmod]; [done|].
      rewrite elem_of_difference. intros [? _]. by apply IH.
Qed.

End Tracker.

(** C7: after any sequence of key-down, key-up, blur and render
    occurrences, starting from the mounted hook, a key that is not a
    modifier is in the pressed-key set iff its most recent key event was a
    key-down and the window was not blurred since; a modifier key is never
    in the set; a blur empties the set, and on the key-down that follows a
    blur no binding with an extra key other than the pressed key itself is
    selected. *)
Theorem pressed_keys_tracked `{U : Util} {Handler : Type}
    (p : Props Handler) (hes : list (HostEvent Handler)) (c : string) :
  let h := (hostRun (mount p) hes).1 in
  let blurred := (hostStep h WindowBlur).1 in
  (c ∉ allModifiers → (c ∈ pressedOf h ↔ lastDown c hes)) ∧
  (c ∈ allModifiers → c ∉ pressedOf h) ∧
  pressedOf blurred = ∅ ∧
  (∀ e kb x,
     x ∈ extraNonModifierKeys kb → x ≠ code e →
     selected (props blurred) (refs blurred) e keydown ≠ Some kb).
Proof.
  intros h blurred. split; [|split; [|split]].
  - intros Hc. by apply pressed_iff_lastDown.
  - intros Hc Hin. by apply pressed_not_modifier in Hin.
  - unfold blurred. by rewrite hostStep_pressed.
  - intros e kb x Hx Hne Hsel. unfold selected in Hsel.
    apply matching_Some in Hsel as [_ (_ & _ & _ & _ & Hsub)].
    assert (nonModifierKeysDownRef (refs blurred) = ∅) as Hblur
      by apply (hostStep_pressed h WindowBlur).
    apply Hsub in Hx. unfold pressedAtMatch in Hx. rewrite Hblur in Hx.
    apply elem_of_union in Hx as [Hx|Hx].
    + by apply elem_of_singleton in Hx.
    + by apply elem_of_empty in Hx.
Qed.

Lemma pressed_keys_tracked_witness :
  let p := exampleProps [mkKeyBinding "KeyB+KeyA" "actionZ"] false in
  "KeyB" ∈ pressedOf (@hostRun utilModifiers _ (mount p) [KeyDown (plainKey "KeyB")]).1 ∧
  (@hostRun utilModifiers _ (mount p)
     [KeyDown (plainKey "KeyB"); KeyDown (plainKey "KeyA")]).2
    = [Call "actionZ"; PreventDefault; StopPropagation] ∧
  (@hostRun utilModifiers _ (mount p)
     [KeyDown (plainKey "KeyB"); WindowBlur; KeyDown (plainKey "KeyA")]).2 = [].
Proof.
  intros p. split; [|split; vm_compute; reflexivity].
  apply (@pressed_keys_tracked utilModifiers string p [KeyDown (plainKey "KeyB")] "KeyB").
  - by vm_compute.
  - exists [], (plainKey "KeyB"), []. by repeat split.
Defined.

(** ** Further properties of the combination strings *)

Lemma split_nonempty sep s : split sep s ≠ [].
Proof.
  destruct s as [|c rest]; simpl; [done|].
  destruct (Ascii.eqb c sep); [done|]. by destruct (split sep rest).
Qed.

Lemma join_cons sep tok toks :
  toks ≠ [] → join sep (tok :: toks) = tok +:+ String sep (join sep toks).
Proof. by destruct toks. Qed.

Lemma join_cons_char sep c tok toks :
  join sep (String c tok :: toks) = String c (join sep (tok :: toks)).
Proof. by destruct toks. Qed.

(** X1: [split] is inverted by [join]: the tokens of a string, joined by
    the separator, give the string back; there is always at least one
    token, one more than the string has separators, and no token contains
    the separator.  Conversely a non-empty list of tokens without the
    separator is what [split] returns on their [join]. *)
Theorem split_join_roundtrip (sep : ascii) (s : string) :
  join sep (split sep s) = s ∧
  length (split sep s) = S (countChar sep s) ∧
  Forall (λ tok, hasChar sep tok = false) (split sep s) ∧
  (∀ toks, toks ≠ [] → Forall (λ tok, hasChar sep tok = false) toks →
           split sep (join sep toks) = toks).
Proof.
  split; [|split; [|split]].
  - induction s as [|c rest IH]; simpl; [done|].
    destruct (Ascii.eqb_spec c sep) as [->|Hne].
    + rewrite join_cons by apply split_nonempty. simpl. by rewrite IH.
    + pose proof (split_nonempty sep rest) as Hne'.
      destruct (split sep rest) as [|tok toks]; [done|].
      by rewrite join_cons_char, IH.
  - induction s as [|c rest IH]; simpl; [done|].
    destruct (Ascii.eqb c sep); simpl; [by rewrite IH|].
    pose proof (split_nonempty sep rest) as Hne'.
    by destruct (split sep rest) as [|tok toks].
  - induction s as [|c rest IH]; simpl; [by repeat constructor|].
    destruct (Ascii.eqb c sep) eqn:Hc; [by constructor|].
    pose proof (split_nonempty sep rest) as Hne'.
    destruct (split sep rest) as [|tok toks]; [done|].
    apply Forall_cons in IH as [Htok Htoks]. constructor; [|done].
    simpl. by rewrite Hc.
  - intros toks. induction toks as [|tok toks IH]; [done|].
    intros _ Hall. apply Forall_cons in Hall as [Htok Htoks].
    destruct toks as [|tok' toks].
    + simpl. clear IH Htoks. induction tok as [|c tok IHtok]; [done|].
      simpl in *. apply orb_false_iff in Htok as [Hc Htok].
      rewrite Hc, (IHtok Htok). done.
    + rewrite join_cons by done. specialize (IH ltac:(done) Htoks).
      remember (join sep (tok' :: toks)) as joined eqn:Hj.
      remember (tok' :: toks) as rest eqn:Hrest. clear Hj Hrest Htoks.
      induction tok as [|c tok IHtok].
      * simpl. by rewrite Ascii.eqb_refl, IH.
      * simpl in Htok. apply orb_false_iff in Htok as [Hc Htok].
        simpl. rewrite Hc. by rewrite (IHtok Htok).
Qed.

Lemma split_join_roundtrip_witness :
  join "+" (split "+" "ctrl+shift+KeyG") = "ctrl+shift+KeyG" ∧
  split "+" (join "+" ["KeyB"; ""; "KeyA"]) = ["KeyB"; ""; "KeyA"].
Proof.
  split.
  - apply (split_join_roundtrip "+" "ctrl+shift+KeyG").
  - apply (split_join_roundtrip "+" ""); [done|].
    repeat constructor.
Defined.

(** ** Further properties of the binding index *)

Section IndexMore.
Context `{U : Util}.

Lemma indexSize_push (m : gmap string (list NormalizedKeyBinding)) k nb :
  indexSize (<[k := default [] (m !! k) ++ [nb]]> m) = S (indexSize m).
Proof.
  unfold indexSize.
  assert (∀ (z1 z2 : list NormalizedKeyBinding) (y : nat),
            length z1 + (length z2 + y) = length z2 + (length z1 + y)) as Hcomm
    by (intros; lia).
  destruct (m !! k) as [old|] eqn:Hk; simpl.
  - rewrite (map_fold_delete_L _ _ k old m) by (intros; by try apply Hcomm).
    rewrite <- insert_delete_eq.
    rewrite map_fold_insert_L; [|intros; apply Hcomm|apply lookup_delete_eq].
    rewrite length_app. simpl. lia.
  - rewrite map_fold_insert_L; [done|intros; apply Hcomm|done].
Qed.

Lemma omap_normalize_cons kb kbs :
  omap normalize (kb :: kbs)
  = match normalize kb with
    | Some nb => nb :: omap normalize kbs
    | None => omap normalize kbs
    end.
Proof. done. Qed.

Lemma indexSize_foldl kbs acc :
  indexSize (foldl indexStep acc kbs) = indexSize acc + length (omap normalize kbs).
Proof.
  revert acc. induction kbs as [|kb kbs IH]; intros acc.
  { cbn. by rewrite Nat.add_0_r. }
  rewrite omap_normalize_cons. cbn [foldl]. rewrite IH, indexStep_normalize.
  destruct (normalize kb) as [nb|]; [|done].
  rewrite indexSize_push. cbn [length]. lia.
Qed.

Lemma omap_normalize_length kbs :
  length (omap normalize kbs)
  = length (filter (λ kb, nonModifierKeysOf kb ≠ []) kbs).
Proof.
  induction kbs as [|kb kbs IH]; [done|].
  rewrite omap_normalize_cons, filter_cons.
  destruct (decide (nonModifierKeysOf kb ≠ [])) as [Hne|Hnil].
  - destruct (normalize_Some kb Hne) as [nb ->]. cbn [length]. by rewrite IH.
  - apply dec_stable in Hnil. by rewrite (proj2 (normalize_None kb) Hnil).
Qed.

Lemma find_app_first {A} (f : A → bool) (l1 l2 : list A) x :
  List.find f l1 = Some x → List.find f (l1 ++ l2) = Some x.
Proof.
  induction l1 as [|y l1 IH]; simpl; [done|]. by destruct (f y).
Qed.

Lemma existsb_same_tokens (S : gset string) (l1 l2 : list string) :
  (∀ tok, tok ∈ l1 ↔ tok ∈ l2) →
  existsb (λ key, bool_decide (key ∈ S)) l1
  = existsb (λ key, bool_decide (key ∈ S)) l2.
Proof.
  intros Hsame. apply eq_true_iff_eq. rewrite !existsb_elem_of.
  split; intros (tok & Hin & HS); exists tok; (split; [by apply Hsame | done]).
Qed.

Lemma in_before_split {A} (l1 l2 before after : list A) x y :
  l1 ++ x :: l2 = before ++ y :: after → y ∉ l1 → y ≠ x → x ∈ before.
Proof.
  revert before. induction l1 as [|a l1 IH]; intros before Heq Hnin Hne.
  - destruct before as [|b before]; simpl in Heq.
    + by injection Heq as ->.
    + injection Heq as -> _. by left.
  - destruct before as [|b before]; simpl in Heq.
    + injection Heq as -> _. exfalso. apply Hnin. by left.
    + injection Heq as -> Heq. right. apply IH; [done| |done].
      intros Hin. apply Hnin. by right.
Qed.

End IndexMore.

(** X2: an invariant of the index that the [reduce] returns.  Under every
    key there is a non-empty list; the key is not a modifier name and not a
    member inherited from [Object.prototype]; and every entry of the list
    has that key as primary key, comes from a raw binding of the list, has
    the key as the last non-modifier token of that binding and has only
    non-modifier tokens of that binding as extra keys. *)
Theorem index_entries_wellformed `{U : Util}
    (kbs : list KeyBinding) (index : gmap string (list NormalizedKeyBinding))
    (k : string) (l : list NormalizedKeyBinding) :
  reduceKeyBindings kbs = Returned index →
  index !! k = Some l →
  l ≠ [] ∧ (k ∉ allModifiers) ∧ (k ∉ objectPrototypeMembers) ∧
  Forall (λ nb,
    primaryKey nb = k ∧ binding nb ∈ kbs ∧
    last (nonModifierKeysOf (binding nb)) = Some k ∧
    ∀ x, x ∈ extraNonModifierKeys nb →
         x ∈ tokensOf (binding nb) ∧ x ∉ allModifiers) l.
Proof.
  intros Hret Hl. apply reduce_returns_index in Hret as [-> Hclean].
  split; [by eapply index_nonempty|].
  split; [by eapply index_key_not_modifier|].
  assert (∀ nb, nb ∈ l →
            primaryKey nb = k ∧ binding nb ∈ kbs ∧
            last (nonModifierKeysOf (binding nb)) = Some k ∧
            ∀ x, x ∈ extraNonModifierKeys nb →
                 x ∈ tokensOf (binding nb) ∧ x ∉ allModifiers) as Hentry.
  { intros nb Hnb.
    destruct (index_entry kbs k l nb Hl Hnb) as (Hpk & kb & Hkb & Hn).
    pose proof (normalize_binding kb nb Hn) as Hb.
    pose proof (normalize_primaryKey kb nb Hn) as Hlast.
    rewrite Hb, <- Hpk. split; [done|]. split; [done|]. split; [done|].
    intros x Hx.
    assert (x ∈ nonModifierKeysOf kb) as Hin.
    { unfold normalize in Hn. destruct (last (nonModifierKeysOf kb)); [|done].
      injection Hn as <-. simpl in Hx. apply elem_of_list_to_set in Hx.
      destruct (nonModifierKeysOf kb) as [|t ts] using rev_ind; [done|].
      rewrite removelast_last in Hx. apply elem_of_app. by left. }
    by apply list_elem_of_filter in Hin as [? ?]. }
  split; [|by apply Forall_forall].
  pose proof (index_nonempty _ _ _ Hl) as Hne.
  destruct l as [|nb l']; [done|].
  destruct (Hentry nb) as (_ & Hb & Hlast & _); [by left|].
  rewrite Forall_forall in Hclean. intros Hk.
  apply (Hclean _ Hb). unfold inheritedPrimaryKey. by rewrite Hlast.
Qed.

Lemma index_entries_wellformed_witness :
  let kbs := [mkKeyBinding "ctrl+KeyB+KeyA" "actionZ"; mkKeyBinding "shift" "none"] in
  let l := [mkNormalized (mkKeyBinding "ctrl+KeyB+KeyA" "actionZ") "KeyA" {["KeyB"]}
              true false false false] in
  ∃ index, @reduceKeyBindings utilModifiers kbs = Returned index ∧
           index !! "KeyA" = Some l ∧
           Forall (λ nb, primaryKey nb = "KeyA" ∧ binding nb ∈ kbs) l.
Proof.
  intros kbs l.
  assert (@reduceKeyBindings utilModifiers kbs
          = Returned (@keyBindingsByPrimaryKey utilModifiers kbs)) as Hret
    by (vm_compute; reflexivity).
  assert (@keyBindingsByPrimaryKey utilModifiers kbs !! "KeyA" = Some l) as Hl
    by (vm_compute; reflexivity).
  eexists. split; [exact Hret|]. split; [exact Hl|].
  destruct (@index_entries_wellformed utilModifiers kbs _ "KeyA" l Hret Hl)
    as (_ & _ & _ & Hall).
  eapply Forall_impl; [exact Hall|]. by intros nb (? & ? & _).
Defined.

(** X3: the index that the [reduce] returns holds exactly one entry for
    each raw binding that has a token which is not a modifier name, so
    never more entries than raw bindings; for the empty table the [reduce]
    returns the empty object. *)
Theorem index_size `{U : Util}
    (kbs : list KeyBinding) (index : gmap string (list NormalizedKeyBinding)) :
  reduceKeyBindings kbs = Returned index →
  indexSize index = length (filter (λ kb, nonModifierKeysOf kb ≠ []) kbs) ∧
  indexSize index ≤ length kbs ∧
  reduceKeyBindings [] = Returned ∅.
Proof.
  intros Hret. apply reduce_returns_index in Hret as [-> _].
  assert (indexSize (keyBindingsByPrimaryKey kbs)
          = length (filter (λ kb, nonModifierKeysOf kb ≠ []) kbs)) as Hsize.
  { unfold keyBindingsByPrimaryKey.
    rewrite indexSize_foldl, omap_normalize_length.
    unfold indexSize. by rewrite map_fold_empty. }
  split; [done|]. split; [|done].
  rewrite Hsize. apply length_filter.
Qed.

Lemma index_size_witness :
  let kbs := [mkKeyBinding "KeyA" "actionX"; mkKeyBinding "ctrl+shift" "none";
              mkKeyBinding "shift+KeyA" "actionY"; mkKeyBinding "KeyB" "actionZ"] in
  ∃ index, @reduceKeyBindings utilModifiers kbs = Returned index ∧
           indexSize index = 3.
Proof.
  intros kbs.
  assert (@reduceKeyBindings utilModifiers kbs
          = Returned (@keyBindingsByPrimaryKey utilModifiers kbs)) as Hret
    by (vm_compute; reflexivity).
  eexists. split; [exact Hret|].
  destruct (@index_size utilModifiers kbs _ Hret) as (Hsize & _).
  rewrite Hsize. by vm_compute.
Defined.

(** X4: the [reduce] of a table [kbs1 ++ kbs2] continues the [reduce] of
    [kbs1], and throws when that one throws.  When it returns, the
    [reduce] of [kbs1] and of [kbs2] return too, the candidates of every
    key are those of [kbs1] followed by those of [kbs2], and an event
    that selects a binding in the index of [kbs1] selects the same binding
    in the index of [kbs1 ++ kbs2]. *)
Theorem index_append `{U : Util} (kbs1 kbs2 : list KeyBinding) :
  reduceKeyBindings (kbs1 ++ kbs2) =
    match reduceKeyBindings kbs1 with
    | Returned index1 => reduceFrom index1 kbs2
    | ThrewTypeError => ThrewTypeError
    end ∧
  ∀ index, reduceKeyBindings (kbs1 ++ kbs2) = Returned index →
    ∃ index1 index2,
      reduceKeyBindings kbs1 = Returned index1 ∧
      reduceKeyBindings kbs2 = Returned index2 ∧
      (∀ k, default [] (index !! k)
            = default [] (index1 !! k) ++ default [] (index2 !! k)) ∧
      (∀ pressed e kb,
         matchingKeyBinding index1 pressed e = Some kb →
         matchingKeyBinding index pressed e = Some kb).
Proof.
  split; [apply reduceFrom_app|].
  intros index Hret. apply reduce_returns_index in Hret as [-> Hclean].
  apply Forall_app in Hclean as [Hclean1 Hclean2].
  assert (∀ kbs, Forall (λ kb, ¬ inheritedPrimaryKey kb) kbs →
                 reduceKeyBindings kbs = Returned (keyBindingsByPrimaryKey kbs))
    as Hreturns.
  { intros kbs Hall. rewrite reduceKeyBindings_cases.
    rewrite decide_False; [done|]. intros Hex.
    apply Exists_exists in Hex as (kb & Hkb & Hin).
    rewrite Forall_forall in Hall. by apply (Hall kb). }
  exists (keyBindingsByPrimaryKey kbs1), (keyBindingsByPrimaryKey kbs2).
  split; [by apply Hreturns|]. split; [by apply Hreturns|].
  assert (∀ k, default [] (keyBindingsByPrimaryKey (kbs1 ++ kbs2) !! k)
               = default [] (keyBindingsByPrimaryKey kbs1 !! k)
                 ++ default [] (keyBindingsByPrimaryKey kbs2 !! k)) as Happ.
  { intros k. by rewrite !index_candidates, omap_app, filter_app. }
  split; [done|].
  intros pressed e kb Hsel. unfold matchingKeyBinding in *.
  rewrite Happ. by apply find_app_first.
Qed.

Lemma index_append_witness :
  let kbs1 := [mkKeyBinding "KeyA" "actionX"] in
  let kbs2 := [mkKeyBinding "KeyA" "actionY"] in
  ∃ index kb,
    @reduceKeyBindings utilModifiers (kbs1 ++ kbs2) = Returned index ∧
    matchingKeyBinding index ∅ (plainKey "KeyA") = Some kb ∧
    action (binding kb) = "actionX".
Proof.
  intros kbs1 kbs2.
  assert (@reduceKeyBindings utilModifiers (kbs1 ++ kbs2)
          = Returned (@keyBindingsByPrimaryKey utilModifiers (kbs1 ++ kbs2))) as Hret
    by (vm_compute; reflexivity).
  destruct (@index_append utilModifiers kbs1 kbs2) as [_ Happ].
  destruct (Happ _ Hret) as (index1 & index2 & Hret1 & _ & _ & Hsel).
  exists (@keyBindingsByPrimaryKey utilModifiers (kbs1 ++ kbs2)),
    (mkNormalized (mkKeyBinding "KeyA" "actionX") "KeyA" ∅ false false false false).
  split; [exact Hret|]. split; [|done].
  apply Hsel. vm_compute in Hret1. injection Hret1 as <-.
  vm_compute. reflexivity.
Defined.

(** X5: the normalized binding does not depend on where the modifier
    tokens stand or on how often a token is repeated: two combinations
    with the same non-modifier tokens in the same order and the same
    tokens overall are both dropped or both kept, and when kept they have
    the same primary key, extra keys and require flags, so that every
    event matches both or neither. *)
Theorem normalize_modifier_order `{U : Util} (kb1 kb2 : KeyBinding) :
  nonModifierKeysOf kb1 = nonModifierKeysOf kb2 →
  (∀ tok, tok ∈ tokensOf kb1 ↔ tok ∈ tokensOf kb2) →
  (normalize kb1 = None ↔ normalize kb2 = None) ∧
  (∀ n1 n2, normalize kb1 = Some n1 → normalize kb2 = Some n2 →
            sameChord n1 n2 ∧
            ∀ e pressed, chordHolds e pressed n1 = chordHolds e pressed n2).
Proof.
  intros Hnon Hsame. split; [by rewrite !normalize_None, Hnon|].
  intros n1 n2 Hn1 Hn2.
  assert (sameChord n1 n2) as Hchord.
  { unfold normalize in Hn1, Hn2. rewrite <- Hnon in Hn2.
    destruct (last (nonModifierKeysOf kb1)); [|done].
    injection Hn1 as <-. injection Hn2 as <-. unfold sameChord. simpl.
    rewrite Hnon. repeat split; by apply existsb_same_tokens. }
  split; [done|]. intros e pressed.
  destruct Hchord as (_ & Hx & Hc & Hs & Ha & Hm).
  unfold chordHolds. by rewrite Hx, Hc, Hs, Ha, Hm.
Qed.

Lemma normalize_modifier_order_witness :
  ∃ n1 n2,
    @normalize utilModifiers (mkKeyBinding "ctrl+shift+KeyG" "gotoTime") = Some n1 ∧
    @normalize utilModifiers (mkKeyBinding "shift+ctrl+shift+KeyG" "gotoTime") = Some n2 ∧
    sameChord n1 n2.
Proof.
  destruct (@normalize_modifier_order utilModifiers
              (mkKeyBinding "ctrl+shift+KeyG" "gotoTime")
              (mkKeyBinding "shift+ctrl+shift+KeyG" "gotoTime")) as [_ Hsame].
  - vm_compute. reflexivity.
  - intros tok. unfold tokensOf. simpl.
    rewrite !elem_of_cons, !elem_of_nil. tauto.
  - eexists _, _. split; [vm_compute; reflexivity|].
    split; [vm_compute; reflexivity|].
    apply Hsame; vm_compute; reflexivity.
Defined.

(** X6: only the first binding that can match is reachable.  A binding
    that stands after another candidate of the same key with the same four
    require flags and with extra keys that include the other's is never
    selected, whatever the event and the pressed keys. *)
Theorem later_binding_shadowed
    (index : gmap string (list NormalizedKeyBinding))
    (pressed : gset string) (e : KeyboardEvent)
    (l1 l2 : list NormalizedKeyBinding) (kb1 kb2 : NormalizedKeyBinding) :
  index !! code e = Some (l1 ++ kb1 :: l2) →
  kb2 ∉ l1 → kb2 ≠ kb1 →
  requireCtrl kb2 = requireCtrl kb1 → requireShift kb2 = requireShift kb1 →
  requireAlt kb2 = requireAlt kb1 → requireMeta kb2 = requireMeta kb1 →
  extraNonModifierKeys kb1 ⊆ extraNonModifierKeys kb2 →
  matchingKeyBinding index pressed e ≠ Some kb2.
Proof.
  intros Hcands Hnin Hne Hc Hs Ha Hm Hsub Hsel.
  pose proof (matching_first index pressed e) as Hfirst.
  rewrite Hsel, Hcands in Hfirst. simpl in Hfirst.
  destruct Hfirst as (before & after & Heq & Hchord & Hbefore).
  pose proof (in_before_split _ _ _ _ _ _ Heq Hnin Hne) as Hin.
  rewrite Forall_forall in Hbefore. apply (Hbefore kb1 Hin).
  destruct Hchord as (Hc' & Hs' & Ha' & Hm' & Hsub').
  unfold chord. rewrite <- Hc, <- Hs, <- Ha, <- Hm.
  repeat split; try done. by etrans.
Qed.

Lemma later_binding_shadowed_witness :
  let kbX := mkNormalized (mkKeyBinding "KeyA" "actionX") "KeyA" ∅ false false false false in
  let kbY := mkNormalized (mkKeyBinding "KeyB+KeyA" "actionY") "KeyA" {["KeyB"]}
               false false false false in
  let index := @keyBindingsByPrimaryKey utilModifiers
                 [mkKeyBinding "KeyA" "actionX"; mkKeyBinding "KeyB+KeyA" "actionY"] in
  matchingKeyBinding index {["KeyA"; "KeyB"]} (plainKey "KeyA") ≠ Some kbY.
Proof.
  intros kbX kbY index.
  assert (index !! code (plainKey "KeyA") = Some ([] ++ kbX :: [kbY])) as Hcands
    by (vm_compute; reflexivity).
  assert (kbY ≠ kbX) as Hne by (intros Heq; discriminate Heq).
  exact (later_binding_shadowed index _ (plainKey "KeyA") [] [kbY] kbX kbY
           Hcands (not_elem_of_nil _) Hne eq_refl eq_refl eq_refl eq_refl
           (empty_subseteq _)).
Defined.

(** ** Further properties of the listener *)

Section ListenerMore.
Context `{U : Util} {Handler : Type}.
Implicit Types (p : Props Handler) (r : Refs) (e : KeyboardEvent).

Lemma altMenuStep_log e ev r :
  (altMenuStep (Handler:=Handler) e ev r).2 = [] ∨
  (ev = keyup ∧ altActionRef r = true ∧
   (code e = "AltLeft" ∨ code e = "AltRight") ∧
   altMenuStep (Handler:=Handler) e ev r
   = (mkRefs false (nonModifierKeysDownRef r), [PreventDefault])).
Proof.
  unfold altMenuStep.
  destruct (bool_decide_reflect (ev = keyup)) as [Hev|Hev]; [|by left].
  destruct (altActionRef r); [|by left].
  destruct (bool_decide_reflect (code e = "AltLeft")) as [HL|HL];
    [right; by repeat split; try left|].
  destruct (bool_decide_reflect (code e = "AltRight")) as [HR|HR];
    [right; by repeat split; try right | by left].
Qed.

Lemma onKeyUp2_log p act r :
  (exec (onKeyUp2 p act) r).2 = [] ∨ ∃ fn, (exec (onKeyUp2 p act) r).2 = [Call fn].
Proof.
  rewrite onKeyUp2_exec. simpl. destruct (act ≫= _) as [fn|]; [right; by exists fn | by left].
Qed.

Lemma altMenuStep_keyup_log e r :
  (altMenuStep (Handler:=Handler) e keyup r).2
  = if bool_decide (altActionRef r = true ∧
                    (code e = "AltLeft" ∨ code e = "AltRight"))
    then [PreventDefault] else [].
Proof.
  destruct (decide (altActionRef r = true ∧
                    (code e = "AltLeft" ∨ code e = "AltRight"))) as [[Hf Hc]|Hn].
  - rewrite (bool_decide_eq_true_2 _ (conj Hf Hc)). unfold altMenuStep.
    rewrite Hf. by destruct Hc as [-> | ->].
  - rewrite (bool_decide_eq_false_2 _ Hn). unfold altMenuStep.
    destruct (altActionRef r) eqn:Hf; [|done].
    rewrite (bool_decide_eq_false_2 (code e = "AltLeft"))
      by (intros ?; apply Hn; split; [done | by left]).
    by rewrite (bool_decide_eq_false_2 (code e = "AltRight"))
      by (intros ?; apply Hn; split; [done | by right]).
Qed.

(** The log of a key-up: at most a [PreventDefault] of the Alt step, then
    at most one release callback. *)
Lemma keyup_log_shape p e r :
  ∃ post,
    (runEvent p e keyup r).2
    = (if bool_decide (altActionRef r = true ∧
                       (code e = "AltLeft" ∨ code e = "AltRight"))
       then [PreventDefault] else []) ++ post ∧
    (post = [] ∨ ∃ fn, post = [Call fn]).
Proof.
  destruct (decide (code e ∈ allModifiers)) as [Hmod|Hmod].
  - rewrite runEvent_modifier by done. exists [].
    split; [by rewrite app_nil_r, altMenuStep_keyup_log | by left].
  - rewrite runEvent_keyup by done. simpl.
    exists (exec (onKeyUp2 p (actionOf (selected p r e keyup))) r).2.
    split; [by rewrite altMenuStep_keyup_log | apply onKeyUp2_log].
Qed.

Lemma selected_unbound p r e ev :
  keyBindingsByPrimaryKey (keyBindings p) !! code e = None →
  selected p r e ev = None.
Proof. intros Hnone. unfold selected, matchingKeyBinding. by rewrite Hnone. Qed.

End ListenerMore.

(** X7: an event of a modifier key is ignored: it invokes no callback,
    leaves the pressed-key set as it is, never stops propagation and never
    closes the dialog; on key-down it changes nothing at all. *)
Theorem modifier_key_ignored `{U : Util} {Handler : Type}
    (p : Props Handler) (r : Refs) (e : KeyboardEvent) (ev : EventName) :
  code e ∈ allModifiers →
  nonModifierKeysDownRef (runEvent p e ev r).1 = nonModifierKeysDownRef r ∧
  ¬ dispatched ((runEvent p e ev r).2) ∧
  (StopPropagation ∉ (runEvent p e ev r).2) ∧
  (CloseExportConfirm ∉ (runEvent p e ev r).2) ∧
  runEvent p e keydown r = (r, []).
Proof.
  intros Hmod. rewrite !runEvent_modifier by done.
  split; [apply altMenuStep_pressed|].
  split; [intros [fn Hfn]; by apply altMenuStep_no_call in Hfn|].
  destruct (altMenuStep_log (Handler:=Handler) e ev r) as [Hlog|(_ & _ & _ & Hlog)];
    rewrite Hlog; simpl; repeat split; try done.
  all: intros Hin; log_mem Hin.
Qed.

Lemma modifier_key_ignored_witness :
  let p := exampleProps [mkKeyBinding "shift+KeyA" "actionY"] false in
  let e := keyEvent "ShiftLeft" false true false false DocumentBody in
  @runEvent utilModifiers _ p e keydown noRefs = (noRefs, []) ∧
  nonModifierKeysDownRef (@runEvent utilModifiers _ p e keyup (mkRefs true {["KeyA"]})).1
  = {["KeyA"]}.
Proof.
  intros p e.
  destruct (@modifier_key_ignored utilModifiers string p noRefs e keydown)
    as (_ & _ & _ & _ & Hdown); [by vm_compute|].
  destruct (@modifier_key_ignored utilModifiers string p (mkRefs true {["KeyA"]})
              e keyup) as (Hup & _); [by vm_compute|].
  by split.
Defined.

(** X8: a key-up never consumes the event as a key-down does: it never
    stops propagation and never closes the dialog, and it prevents the
    default exactly when the Alt flag is set and the key is [AltLeft] or
    [AltRight]. *)
Theorem keyup_never_consumes `{U : Util} {Handler : Type}
    (p : Props Handler) (r : Refs) (e : KeyboardEvent) :
  (StopPropagation ∉ (runEvent p e keyup r).2) ∧
  (CloseExportConfirm ∉ (runEvent p e keyup r).2) ∧
  ¬ consumed ((runEvent p e keyup r).2) ∧
  (PreventDefault ∈ (runEvent p e keyup r).2 ↔
   altActionRef r = true ∧ (code e = "AltLeft" ∨ code e = "AltRight")).
Proof.
  destruct (keyup_log_shape p e r) as (post & -> & Hpost).
  case_bool_decide as Halt; simpl.
  - split; [|split; [|split]].
    + intros Hin. apply elem_of_cons in Hin as [Hin|Hin]; [done|].
      destruct Hpost as [->|(fn & ->)]; log_mem Hin.
    + intros Hin. apply elem_of_cons in Hin as [Hin|Hin]; [done|].
      destruct Hpost as [->|(fn & ->)]; log_mem Hin.
    + intros [_ Hin]. apply elem_of_cons in Hin as [Hin|Hin]; [done|].
      destruct Hpost as [->|(fn & ->)]; log_mem Hin.
    + split; [done | intros _; by left].
  - split; [|split; [|split]].
    + intros Hin. destruct Hpost as [->|(fn & ->)]; log_mem Hin.
    + intros Hin. destruct Hpost as [->|(fn & ->)]; log_mem Hin.
    + intros [Hin _]. destruct Hpost as [->|(fn & ->)]; log_mem Hin.
    + split; [|done]. intros Hin. destruct Hpost as [->|(fn & ->)]; log_mem Hin.
Qed.

(** X9: the Alt flag, once set, is cleared by the key-up of [AltLeft] or
    [AltRight] and by nothing else: a blur, a render and every other key
    event keep it.  The key-up that clears it prevents the event's default
    first, whatever the modifier sets are. *)
Theorem alt_flag_cleared_only_by_alt_keyup `{U : Util} {Handler : Type}
    (h : Hook Handler) (he : HostEvent Handler) :
  altActionRef (refs h) = true →
  (altActionRef (refs (hostStep h he).1) = false ↔
   ∃ e, he = KeyUp e ∧ (code e = "AltLeft" ∨ code e = "AltRight")) ∧
  (∀ e, he = KeyUp e → code e = "AltLeft" ∨ code e = "AltRight" →
        ∃ rest, (hostStep h he).2 = PreventDefault :: rest).
Proof.
  destruct h as [p r]. simpl. intros Hset. split.
  - destruct he as [e|e| |p']; simpl.
    + pose proof (keydown_alt p e r) as Hd. unfold runEvent in Hd.
      destruct (exec (handleKeyEvent p e keydown) r) as [r1 log1]. simpl in *.
      rewrite Hd, Hset. simpl. split; [done | by intros (? & ? & _)].
    + pose proof (keyup_flag p e r) as Hu. unfold runEvent in Hu.
      destruct (exec (handleKeyEvent p e keyup) r) as [r1 log1]. simpl in *.
      rewrite Hu. unfold altMenuStep. rewrite Hset. simpl.
      destruct (bool_decide_reflect (code e = "AltLeft")) as [HL|HL]; simpl.
      { split; [intros _; exists e; split; [done | by left] | done]. }
      destruct (bool_decide_reflect (code e = "AltRight")) as [HR|HR]; simpl.
      { split; [intros _; exists e; split; [done | by right] | done]. }
      rewrite Hset. split; [done|]. intros (e' & [= <-] & [?|?]); done.
    + rewrite Hset. split; [done | by intros (? & ? & _)].
    + rewrite Hset. split; [done | by intros (? & ? & _)].
  - intros e -> Hcode. simpl.
    destruct (keyup_log_shape p e r) as (post & Hlog & _).
    rewrite bool_decide_eq_true_2 in Hlog by done. unfold runEvent in Hlog.
    destruct (exec (handleKeyEvent p e keyup) r) as [r1 log1]. simpl in *.
    by exists post.
Qed.

Lemma alt_flag_cleared_only_by_alt_keyup_witness :
  let h := mkHook (exampleProps [mkKeyBinding "alt+KeyK" "toggleKeyframes"] false)
             (mkRefs true {["KeyK"]}) in
  altActionRef (refs (@hostStep utilModifiers _ h WindowBlur).1) ≠ false ∧
  altActionRef
    (refs (@hostStep utilModifiers _ h
             (KeyUp (keyEvent "AltRight" false false false false DocumentBody))).1)
  = false.
Proof.
  intros h. split.
  - intros Hoff.
    apply (@alt_flag_cleared_only_by_alt_keyup utilModifiers string h WindowBlur)
      in Hoff as (e & Habs & _); [discriminate Habs | done].
  - apply (@alt_flag_cleared_only_by_alt_keyup utilModifiers string h); [done|].
    eexists. split; [reflexivity | by right].
Defined.

(** X10: a key that is held down repeats its key-down, and every repeat
    behaves as the first one: handling the same key-down again gives the
    same log and leaves the refs as the first one left them. *)
Theorem keydown_repeat `{U : Util} {Handler : Type}
    (p : Props Handler) (r : Refs) (e : KeyboardEvent) :
  runEvent p e keydown (runEvent p e keydown r).1 = runEvent p e keydown r.
Proof.
  destruct (decide (code e ∈ allModifiers)) as [Hmod|Hmod].
  { by rewrite !keydown_modifier_log. }
  assert (∀ r', nonModifierKeysDownRef r' = {[code e]} ∪ nonModifierKeysDownRef r →
                selected p r' e keydown = selected p r e keydown) as Hsel.
  { intros r' Hr'. unfold selected, pressedAtMatch. rewrite Hr'.
    by rewrite (assoc_L (∪)), (idemp_L (∪)). }
  rewrite (runEvent_keydown p e r Hmod), onKeyDown2_exec.
  remember (actionOf (selected p r e keydown)) as act eqn:Hact.
  destruct (exportConfirmOpen p && bool_decide (code e = "Escape")) eqn:H1;
    [|destruct (exportConfirmOpen p && negb (bool_decide (act = Some "export"))) eqn:H2;
      [|destruct (negb (bool_decide (target e = DocumentBody))) eqn:H3;
        [|destruct (act ≫= getKeyboardAction p) as [fn|] eqn:H4]]];
    simpl.
  all: rewrite runEvent_keydown, onKeyDown2_exec by done.
  all: rewrite Hsel by done; rewrite <- Hact; simpl.
  all: rewrite ?H1, ?H2, ?H3, ?H4; simpl.
  all: rewrite (assoc_L (∪)), (idemp_L (∪)); try done.
  by destruct (altKey e), (altActionRef r).
Qed.

(** X11: pressing and then releasing a key that was not held leaves the
    pressed-key set as it was before. *)
Theorem tap_restores_pressed `{U : Util} {Handler : Type}
    (p : Props Handler) (r : Refs) (e e' : KeyboardEvent) :
  code e' = code e →
  code e ∉ nonModifierKeysDownRef r →
  nonModifierKeysDownRef (runEvent p e' keyup (runEvent p e keydown r).1).1
  = nonModifierKeysDownRef r.
Proof.
  intros Hcode Hfree. rewrite keyup_pressed, keydown_pressed, Hcode.
  destruct (decide (code e ∈ allModifiers)); [done|].
  apply set_eq. intros x.
  rewrite elem_of_difference, elem_of_union, elem_of_singleton.
  split; [by intros [[?|?] ?] | intros Hx; split; [by right | by intros ->]].
Qed.

Lemma tap_restores_pressed_witness :
  let p := exampleProps [mkKeyBinding "KeyB+KeyA" "actionZ"] false in
  nonModifierKeysDownRef
    (@runEvent utilModifiers _ p (plainKey "KeyA") keyup
       (@runEvent utilModifiers _ p (plainKey "KeyA") keydown
          (mkRefs false {["KeyB"]})).1).1
  = {["KeyB"]}.
Proof.
  intros p.
  assert (code (plainKey "KeyA") ∉ nonModifierKeysDownRef (mkRefs false {["KeyB"]}))
    as Hfree by (by vm_compute).
  exact (@tap_restores_pressed utilModifiers string p (mkRefs false {["KeyB"]})
           (plainKey "KeyA") (plainKey "KeyA") eq_refl Hfree).
Defined.

(** X12: a key that is the primary key of no binding has no candidates
    (the lookup in the index misses and [?? []] stands in): its key-down
    and its key-up invoke no callback, and its key-down is consumed only
    when it is the Escape that closes the dialog.  This is so for every
    key when the binding table is empty. *)
Theorem unbound_key_no_dispatch `{U : Util} {Handler : Type}
    (p : Props Handler) (r : Refs) (e : KeyboardEvent) (ev : EventName) :
  (∀ kb, kb ∈ keyBindings p → last (nonModifierKeysOf kb) ≠ Some (code e)) →
  keyBindingsByPrimaryKey (keyBindings p) !! code e = None ∧
  ¬ dispatched ((runEvent p e ev r).2) ∧
  (consumed ((runEvent p e keydown r).2) → escapeClosesDialog p e).
Proof.
  intros Hunbound.
  assert (keyBindingsByPrimaryKey (keyBindings p) !! code e = None) as Hnone.
  { destruct (keyBindingsByPrimaryKey (keyBindings p) !! code e) as [l|] eqn:Hl;
      [|done].
    pose proof (index_nonempty _ _ _ Hl) as Hne.
    destruct l as [|nb l]; [done|].
    destruct (index_entry _ _ _ nb Hl) as (Hpk & kb & Hkb & Hn); [by left|].
    apply normalize_primaryKey in Hn. rewrite Hpk in Hn.
    by apply Hunbound in Hn. }
  assert (∀ ev', selected p r e ev' = None) as Hsel
    by (intros ev'; by apply selected_unbound).
  split; [done|].
  destruct (keydown_outcomes p r e)
    as [[Hmod Hlog] | [(Hmod & Hesc & Hlog) | [(Hmod & Hesc & fn & Hfn & Hlog)
                                              | (Hmod & Hesc & Hno & Hlog)]]].
  - split.
    + destruct ev; [rewrite Hlog; intros [fn Hfn]; log_mem Hfn|].
      intros [fn Hfn]. apply keyup_call in Hfn as [? _]. done.
    + rewrite Hlog. intros Hc. by apply not_consumed_nil in Hc.
  - split; [|done].
    destruct ev; [rewrite Hlog; intros [fn Hfn]; log_mem Hfn|].
    intros [fn Hfn]. apply keyup_call in Hfn as (_ & kb & Hkb & _). congruence.
  - destruct Hfn as (kb & Hkb & _). congruence.
  - split.
    + destruct ev; [rewrite Hlog; intros [fn Hfn]; log_mem Hfn|].
      intros [fn Hfn]. apply keyup_call in Hfn as (_ & kb & Hkb & _). congruence.
    + rewrite Hlog. intros Hc. by apply not_consumed_nil in Hc.
Qed.

Lemma unbound_key_no_dispatch_witness :
  let p := exampleProps [] false in
  ¬ dispatched ((@runEvent utilModifiers _ p (plainKey "KeyA") keydown noRefs).2) ∧
  ¬ dispatched ((@runEvent utilModifiers _ p (plainKey "KeyA") keyup noRefs).2).
Proof.
  intros p. split.
  - apply (@unbound_key_no_dispatch utilModifiers string p noRefs (plainKey "KeyA")
             keydown).
    intros kb Hkb. by apply elem_of_nil in Hkb.
  - apply (@unbound_key_no_dispatch utilModifiers string p noRefs (plainKey "KeyA")
             keyup).
    intros kb Hkb. by apply elem_of_nil in Hkb.
Defined.

(** X13: one event invokes at most one callback: a key-down logs nothing,
    or the three effects of the Escape branch, or one action callback
    followed by [preventDefault] and [stopPropagation]; a key-up logs at
    most one [preventDefault] and then at most one release callback. *)
Theorem one_callback_per_event `{U : Util} {Handler : Type}
    (p : Props Handler) (r : Refs) (e : KeyboardEvent) (ev : EventName) :
  callCount ((runEvent p e ev r).2) ≤ 1 ∧
  ((runEvent p e keydown r).2 = [] ∨
   (runEvent p e keydown r).2 = [CloseExportConfirm; PreventDefault; StopPropagation] ∨
   ∃ fn, (runEvent p e keydown r).2 = [Call fn; PreventDefault; StopPropagation]) ∧
  ((runEvent p e keyup r).2 = [] ∨
   (runEvent p e keyup r).2 = [PreventDefault] ∨
   (∃ fn, (runEvent p e keyup r).2 = [Call fn]) ∨
   ∃ fn, (runEvent p e keyup r).2 = [PreventDefault; Call fn]).
Proof.
  assert ((runEvent p e keydown r).2 = [] ∨
          (runEvent p e keydown r).2
            = [CloseExportConfirm; PreventDefault; StopPropagation] ∨
          ∃ fn, (runEvent p e keydown r).2
                = [Call fn; PreventDefault; StopPropagation]) as Hdown.
  { destruct (keydown_outcomes p r e)
      as [[_ Hlog] | [(_ & _ & Hlog) | [(_ & _ & fn & _ & Hlog) | (_ & _ & _ & Hlog)]]];
      rewrite Hlog; [by left | right; by left | right; right; by exists fn | by left]. }
  assert ((runEvent p e keyup r).2 = [] ∨
          (runEvent p e keyup r).2 = [PreventDefault] ∨
          (∃ fn, (runEvent p e keyup r).2 = [Call fn]) ∨
          ∃ fn, (runEvent p e keyup r).2 = [PreventDefault; Call fn]) as Hup.
  { destruct (keyup_log_shape p e r) as (post & -> & [->|(fn & ->)]);
      case_bool_decide; simpl;
      [right; by left | by left | right; right; right; by exists fn
      | right; right; left; by exists fn]. }
  split; [|by split].
  destruct ev.
  - destruct Hdown as [->|[->|(fn & ->)]]; unfold callCount; simpl; lia.
  - destruct Hup as [->|[->|[(fn & ->)|(fn & ->)]]]; unfold callCount; simpl; lia.
Qed.

(** X14: the focus gate also holds while the dialog is open: apart from
    the Escape that closes the dialog, a key-down whose target is not the
    document body logs nothing and leaves the Alt flag as it was, even
    when its binding is the one of [export]. *)
Theorem focus_gate_with_dialog `{U : Util} {Handler : Type}
    (p : Props Handler) (r : Refs) (e : KeyboardEvent) :
  target e ≠ DocumentBody →
  ¬ escapeClosesDialog p e →
  (runEvent p e keydown r).2 = [] ∧
  altActionRef (runEvent p e keydown r).1 = altActionRef r.
Proof.
  intros Ht Hesc.
  assert ((runEvent p e keydown r).2 = []) as Hlog.
  { destruct (keydown_outcomes p r e)
      as [[_ Hlog] | [(_ & ? & _) | [(_ & _ & fn & Hfn & _) | (_ & _ & _ & Hlog)]]];
      try done.
    by destruct Hfn as (kb & _ & _ & ? & _). }
  split; [done|]. rewrite keydown_alt, Hlog. simpl.
  by rewrite andb_false_r, orb_false_r.
Qed.

Lemma focus_gate_with_dialog_witness :
  let p := exampleProps [mkKeyBinding "KeyE" "export"] true in
  (@runEvent utilModifiers _ p
     (keyEvent "KeyE" false false false false (OtherElement "BUTTON")) keydown noRefs).2
  = [] ∧
  (@runEvent utilModifiers _ p (plainKey "KeyE") keydown noRefs).2
  = [Call "export"; PreventDefault; StopPropagation].
Proof.
  intros p. split; [|vm_compute; reflexivity].
  apply (@focus_gate_with_dialog utilModifiers string p noRefs
           (keyEvent "KeyE" false false false false (OtherElement "BUTTON"))).
  - done.
  - intros [_ Hcode]. discriminate Hcode.
Defined.

(** X15: the extra keys of a chord are a lower bound on the pressed keys,
    not an exact set: a chord that holds keeps holding when further keys
    are down, and an event for which some binding is selected still has a
    binding selected then; the same binding when it is the first
    candidate of its key. *)
Theorem extra_pressed_keys_do_not_block
    (index : gmap string (list NormalizedKeyBinding))
    (pressed pressed' : gset string) (e : KeyboardEvent) :
  pressed ⊆ pressed' →
  (∀ kb, chord e pressed kb → chord e pressed' kb) ∧
  (is_Some (matchingKeyBinding index pressed e) →
   is_Some (matchingKeyBinding index pressed' e)) ∧
  (∀ kb cands, index !! code e = Some (kb :: cands) →
               matchingKeyBinding index pressed e = Some kb →
               matchingKeyBinding index pressed' e = Some kb).
Proof.
  intros Hsub.
  assert (∀ kb, chord e pressed kb → chord e pressed' kb) as Hmono.
  { intros kb (Hc & Hs & Ha & Hm & Hx). repeat split; try done. by etrans. }
  split; [done|]. split.
  - intros [kb Hsel]. apply matching_Some in Hsel as [Hin Hchord].
    pose proof (matching_first index pressed' e) as Hfirst.
    destruct (matchingKeyBinding index pressed' e) as [kb'|]; [done|].
    rewrite Forall_forall in Hfirst. exfalso. apply (Hfirst kb Hin).
    by apply Hmono.
  - intros kb cands Hcands Hsel.
    apply matching_Some in Hsel as [_ Hchord]. apply Hmono in Hchord.
    unfold matchingKeyBinding. rewrite Hcands. simpl.
    by rewrite (proj2 (chordHolds_chord e pressed' kb)).
Qed.

Lemma extra_pressed_keys_do_not_block_witness :
  let index := @keyBindingsByPrimaryKey utilModifiers
                 [mkKeyBinding "KeyB+KeyA" "actionZ"] in
  is_Some (matchingKeyBinding index {["KeyA"; "KeyB"; "KeyC"]} (plainKey "KeyA")).
Proof.
  intros index.
  apply (extra_pressed_keys_do_not_block index {["KeyA"; "KeyB"]}
           {["KeyA"; "KeyB"; "KeyC"]} (plainKey "KeyA")).
  - intros x. rewrite !elem_of_union, !elem_of_singleton. tauto.
  - eexists. vm_compute. reflexivity.
Defined.

(** X17: the [reduce] throws exactly when the last non-modifier token of
    some raw binding names a member inherited from [Object.prototype];
    otherwise it returns, and the object it returns has the own properties
    of the index the listeners read. *)
Theorem reduce_throws_iff `{U : Util} (kbs : list KeyBinding) :
  (reduceKeyBindings kbs = ThrewTypeError ↔ Exists inheritedPrimaryKey kbs) ∧
  (∀ index, reduceKeyBindings kbs = Returned index ↔
            Forall (λ kb, ¬ inheritedPrimaryKey kb) kbs ∧
            index = keyBindingsByPrimaryKey kbs).
Proof.
  rewrite reduceKeyBindings_cases.
  destruct (decide (Exists inheritedPrimaryKey kbs)) as [Hex|Hno].
  - split; [done|]. intros index. split; [done|]. intros [Hall _]. exfalso.
    apply Exists_exists in Hex as (kb & Hkb & Hin).
    rewrite Forall_forall in Hall. by apply (Hall kb).
  - split; [done|]. intros index. split.
    + intros [= <-]. split; [|done].
      apply Forall_forall. intros kb Hkb Hin. apply Hno, Exists_exists. eauto.
    + by intros [_ ->].
Qed.
